(** * custom-redis: the command-execution core, embedded and verified

    A shallow embedding of the TypeScript sources

      - [src/engine/valueEntry.ts]   (module [ValueEntry])
      - [src/engine/database.ts]     (module [Database])
      - [src/engine/engine.ts]       (module [Engine])
      - [src/commands/errors.ts]     (module [Errors])
      - [src/commands/context.ts]    (module [CommandContext])
      - [src/commands/registry.ts]   (module [CommandRegistry])
      - [src/commands/dispatcher.ts] (module [CommandDispatcher])
      - [src/commands/handlers/string.ts] (module [SetCommand])

    and of EXPIRE (module [ExpireCommand]), whose handler is not among the
    sources and is modelled from the specification.  [CommandRegistry.list]
    depends on the iteration order of the map: it is in module
    [OrderedRegistry], the registry over a map that keeps that order.

    Conventions.

    - [Date.now()] is a clock reading in whole milliseconds, a [Z].  Every
      function that reads the clock takes the reading as its first argument
      [now]; expiry instants are [Z] as well.
    - JavaScript objects with identity ([ValueEntry], [Database]) live in
      stores indexed by references ([loc]); [new] allocates a reference that
      is not in the store.
    - A [Map<string, _>] is a [gmap string _].
    - [throw] is the left injection of [result]; nothing in the sources
      catches. *)

From Stdlib Require Import QArith.QArith_base Strings.Ascii.
From stdpp Require Import base gmap strings list pretty.

Local Open Scope Z_scope.

(** ** JavaScript values *)

Module Js.

(** A JS [number], kept as the rational it denotes, or one of the three
    non-finite values. *)
Inductive number :=
| Finite (q : Q)
| NaN
| PosInfinity
| NegInfinity.

(** Values of TypeScript's [unknown]: the raw tokens handed to the
    dispatcher, and the structured arguments built by [parse]. *)
#[warnings="-register-all"] Inductive unknown :=
| Undefined
| Null
| Bool (b : bool)
| Num (n : number)
| Str (s : string)
| Arr (elems : list unknown)
| Obj (fields : list (string * unknown)).

(** [Array.prototype.join(",")] over already converted elements. *)
Fixpoint join (parts : list string) : string :=
  match parts with
  | [] => ""
  | [p] => p
  | p :: rest => p +:+ "," +:+ join rest
  end.

(** Whether an object has an own property of that name. *)
Fixpoint has_field (name : string) (fields : list (string * unknown)) : bool :=
  match fields with
  | [] => false
  | (f, _) :: rest => String.eqb f name || has_field name rest
  end.

(** [String(arg)]; [None] is the [TypeError] of a value that has no
    primitive.  [Number::toString] (the shortest decimal that reads back
    as the same double) is taken as the parameter [numToString].  An
    array joins its elements with commas, [null] and [undefined]
    elements printing as nothing.  An object goes through [toString] and
    then [valueOf]: without an own [toString] it prints as
    [[object Object]]; an own [toString] is one of the values of
    [unknown], none of which is callable, and the inherited [valueOf]
    returns the object itself, so the conversion throws. *)
Fixpoint String_ (numToString : number → string) (arg : unknown)
    : option string :=
  match arg with
  | Undefined => Some "undefined"
  | Null => Some "null"
  | Bool true => Some "true"
  | Bool false => Some "false"
  | Num n => Some (numToString n)
  | Str s => Some s
  | Arr elems =>
      join <$>
      (fix parts (es : list unknown) : option (list string) :=
         match es with
         | [] => Some []
         | e :: rest =>
             match match e with
                   | Undefined | Null => Some ""
                   | _ => String_ numToString e
                   end with
             | None => None
             | Some p =>
                 match parts rest with
                 | None => None
                 | Some ps => Some (p :: ps)
                 end
             end
         end) elems
  | Obj fields =>
      if has_field "toString" fields then None else Some "[object Object]"
  end.

(** The strings of a list of values, [None] when one has none. *)
Fixpoint strings (numToString : number → string) (args : list unknown)
    : option (list string) :=
  match args with
  | [] => Some []
  | arg :: rest =>
      match String_ numToString arg, strings numToString rest with
      | Some s, Some ss => Some (s :: ss)
      | _, _ => None
      end
  end.

(** Strings made of ASCII characters only.  On these [toUpperCase]
    below is [String.prototype.toUpperCase]. *)
Definition is_ascii_char (c : ascii) : bool := (N_of_ascii c <? 128)%N.

Fixpoint is_ascii (s : string) : bool :=
  match s with
  | EmptyString => true
  | String c rest => is_ascii_char c && is_ascii rest
  end.

(** [rawArgs[i]]: out of range reads give [undefined]. *)
Definition index (xs : list unknown) (i : nat) : unknown :=
  default Undefined (xs !! i).

(** [o.name]: the first field of that name, [undefined] when there is
    none or [o] is not an object. *)
Fixpoint lookup_field (name : string) (fields : list (string * unknown))
    : unknown :=
  match fields with
  | [] => Undefined
  | (f, v) :: rest => if String.eqb f name then v else lookup_field name rest
  end.

Definition field (name : string) (o : unknown) : unknown :=
  match o with
  | Obj fields => lookup_field name fields
  | _ => Undefined
  end.

(** [String.prototype.toUpperCase] on ASCII strings: the letters a to z
    are raised, every other character is left as it is.  Outside ASCII
    the built-in follows the Unicode case mapping, which is not modelled:
    the properties that depend on it are stated for ASCII names. *)
Definition upper_ascii (c : ascii) : ascii :=
  let n := N_of_ascii c in
  if ((97 <=? n) && (n <=? 122))%N then ascii_of_N (n - 32) else c.

Fixpoint toUpperCase (s : string) : string :=
  match s with
  | EmptyString => EmptyString
  | String c rest => String (upper_ascii c) (toUpperCase rest)
  end.

End Js.

(** ** References and stores *)

Definition loc := positive.

(** [new C(...)]: the object is stored under a reference not yet in use. *)
Definition alloc {A} (x : A) (h : gmap loc A) : loc * gmap loc A :=
  let l := fresh (dom h) in (l, <[l := x]> h).

(** ** src/engine/valueEntry.ts *)

Module ValueEntry.

Inductive RedisDataType := TString | TList | TSet | THash | TStream.

Record t := mk {
  type : RedisDataType;
  value : Js.unknown;
  createdAt : Z;
  updatedAt : Z;
}.

(** The constructor body: [createdAt ?? now] and [updatedAt = now]. *)
Definition constructor (now : Z) (type : RedisDataType) (value : Js.unknown)
    (createdAt : option Z) : t :=
  {| type := type;
     value := value;
     createdAt := default now createdAt;
     updatedAt := now |}.

(** [new ValueEntry(type, value, createdAt)]. *)
Definition new (now : Z) (type : RedisDataType) (value : Js.unknown)
    (createdAt : option Z) (h : gmap loc t) : loc * gmap loc t :=
  alloc (constructor now type value createdAt) h.

(** [this.cloneWithValue(value)], with [this] a reference into the store
    of entries.  A reference held by running code always points into the
    store; [None] covers the others. *)
Definition cloneWithValue (now : Z) (this : loc) (value : Js.unknown)
    (h : gmap loc t) : option (loc * gmap loc t) :=
  match h !! this with
  | Some e => Some (new now (type e) value (Some (createdAt e)) h)
  | None => None
  end.

(** [this.cloneWithValue(v1).cloneWithValue(v2)...]: one clone per step,
    each of the clone before, with the clock reading of that call. *)
Fixpoint clone_chain (steps : list (Z * Js.unknown)) (this : loc)
    (h : gmap loc t) : option (loc * gmap loc t) :=
  match steps with
  | [] => Some (this, h)
  | (now, value) :: rest =>
      match cloneWithValue now this value h with
      | Some (l, h') => clone_chain rest l h'
      | None => None
      end
  end.

End ValueEntry.

(** ** src/engine/database.ts *)

Module Database.

(** The two private maps.  [keyspace] holds references to [ValueEntry]
    objects, [expirations] absolute instants in milliseconds. *)
Record t := mk {
  keyspace : gmap string loc;
  expirations : gmap string Z;
}.

(** A freshly constructed [Database]: both maps empty. *)
Definition new : t := {| keyspace := ∅; expirations := ∅ |}.

Definition isExpired (now : Z) (key : string) (db : t) : bool :=
  match expirations db !! key with
  | Some expiry => bool_decide (expiry ≤ now)
  | None => false
  end.

Definition delete (key : string) (db : t) : t :=
  {| keyspace := base.delete key (keyspace db);
     expirations := base.delete key (expirations db) |}.

(** The result is the returned value ([None] is [null]) and the database
    after the call.  A stored entry is an object, never falsy, so
    [this.keyspace.get(key) || null] is the entry when there is one. *)
Definition get (now : Z) (key : string) (db : t) : option loc * t :=
  if isExpired now key db then (None, delete key db)
  else (keyspace db !! key, db).

Definition set (key : string) (entry : loc) (db : t) : t :=
  {| keyspace := <[key := entry]> (keyspace db);
     expirations := expirations db |}.

Definition setExpiry (key : string) (timestampMs : Z) (db : t) : t :=
  if bool_decide (keyspace db !! key = None) then db
  else {| keyspace := keyspace db;
          expirations := <[key := timestampMs]> (expirations db) |}.

(** One call of a public method, with the clock reading it makes. *)
Inductive Op :=
| OpGet (now : Z) (key : string)
| OpSet (key : string) (entry : loc)
| OpDelete (key : string)
| OpSetExpiry (key : string) (timestampMs : Z)
| OpIsExpired (now : Z) (key : string).

(** The database after one call. *)
Definition step (op : Op) (db : t) : t :=
  match op with
  | OpGet now key => snd (get now key db)
  | OpSet key entry => set key entry db
  | OpDelete key => delete key db
  | OpSetExpiry key ts => setExpiry key ts db
  | OpIsExpired _ _ => db
  end.

(** The database after a sequence of calls, first call first. *)
Definition run (ops : list Op) (db : t) : t :=
  foldl (λ d op, step op d) db ops.

(** Every key with an expiry is a key of the keyspace. *)
Definition invariant (db : t) : Prop :=
  ∀ key, is_Some (expirations db !! key) → is_Some (keyspace db !! key).

(** [get] called once per clock reading, in order; the list of results
    and the final database. *)
Fixpoint get_many (nows : list Z) (key : string) (db : t)
    : list (option loc) * t :=
  match nows with
  | [] => ([], db)
  | now :: rest =>
      let '(r, db') := get now key db in
      let '(rs, db'') := get_many rest key db' in
      (r :: rs, db'')
  end.

(** The key a call is about. *)
Definition op_key (op : Op) : string :=
  match op with
  | OpGet _ key => key
  | OpSet key _ => key
  | OpDelete key => key
  | OpSetExpiry key _ => key
  | OpIsExpired _ key => key
  end.

End Database.

(** ** src/commands/errors.ts *)

Module Errors.

Record Meta := mkMeta {
  command : option string;
  dbIndex : option Z;
  clientId : option string;
  argsCount : option Z;
}.

(** The default [meta = {}]. *)
Definition noMeta : Meta :=
  {| command := None; dbIndex := None; clientId := None; argsCount := None |}.

Inductive Detail :=
| DStr (s : string)
| DObj (fields : list (string * Js.unknown)).

(** The classes of the taxonomy; [new.target] of a construction. *)
Inductive ErrorClass :=
| CommandErrorClass
| UnknownCommandErrorClass
| ArityErrorClass
| InvalidArgumentErrorClass.

Definition className (c : ErrorClass) : string :=
  match c with
  | CommandErrorClass => "CommandError"
  | UnknownCommandErrorClass => "UnknownCommandError"
  | ArityErrorClass => "ArityError"
  | InvalidArgumentErrorClass => "InvalidArgumentError"
  end.

(** A [CommandError] instance: its prototype, [message], the frozen
    [meta] and the [details] array. *)
Record CommandError := mkError {
  class : ErrorClass;
  message : string;
  meta : Meta;
  details : list Detail;
}.

(** [this.name = new.target.name]. *)
Definition name (e : CommandError) : string := className (class e).

(** The base constructor, run for [new.target = cls]; [details] starts
    empty and [meta] defaults to [{}]. *)
Definition construct (cls : ErrorClass) (message : string)
    (meta : option Meta) : CommandError :=
  {| class := cls;
     message := message;
     meta := default noMeta meta;
     details := [] |}.

Definition CommandError_new (message : string) (meta : option Meta)
    : CommandError :=
  construct CommandErrorClass message meta.

(** [addDetails(detail)]: one detail ([inl]) or an array of them ([inr]),
    pushed at the end of [this.details]. *)
Definition addDetails (detail : Detail + list Detail) (this : CommandError)
    : CommandError :=
  {| class := class this;
     message := message this;
     meta := meta this;
     details := details this ++
                match detail with
                | inl d => [d]
                | inr ds => ds
                end |}.

Definition UnknownCommandError_new (command : string) : CommandError :=
  construct UnknownCommandErrorClass
    ("Unknown command '" +:+ command +:+ "'")
    (Some {| command := Some command; dbIndex := None;
             clientId := None; argsCount := None |}).

Record ArityErrorDetails := mkArity {
  min : Z;
  max : Z;
  actual : Z;
}.

(** [new ArityError(command, meta)], [meta] defaulting to
    [{ min: 0, max: 0, actual: 0 }].  The three counts are integers
    below 10^21 in absolute value, which print in decimal. *)
Definition ArityError_new (command : string)
    (meta : option ArityErrorDetails) : CommandError :=
  let meta := default {| min := 0; max := 0; actual := 0 |} meta in
  construct ArityErrorClass
    ("Wrong number of arguments for '" +:+ command +:+ "' (expected "
       +:+ pretty (min meta) +:+ ".." +:+ pretty (max meta)
       +:+ ", got " +:+ pretty (actual meta) +:+ ")")
    (Some {| Errors.command := Some command; dbIndex := None;
             clientId := None; argsCount := Some (actual meta) |}).

Definition InvalidArgumentError_new (message : string) (meta : option Meta)
    : CommandError :=
  construct InvalidArgumentErrorClass message meta.

(** The public operations of an error instance that are not plain reads. *)
Inductive Method :=
| AddDetails (detail : Detail + list Detail).

Definition call (m : Method) (this : CommandError) : CommandError :=
  match m with
  | AddDetails detail => addDetails detail this
  end.

(** The details a call hands over. *)
Definition payload (m : Method) : list Detail :=
  match m with
  | AddDetails (inl d) => [d]
  | AddDetails (inr ds) => ds
  end.

(** Calls on one error instance, first call first. *)
Definition calls (ms : list Method) (this : CommandError) : CommandError :=
  foldl (λ e m, call m e) this ms.

End Errors.

(** ** Thrown values and the monad of throwing, state-changing code *)

Inductive Exception :=
| Thrown (e : Errors.CommandError)
| ReferenceError (identifier : string)
| TypeError (message : string)
| RangeError (message : string)
| Error (message : string).

(** [inl] is a [throw], [inr] a normal return. *)
Definition result (A : Type) : Type := Exception + A.

(** A computation over a mutable world [W]. *)
Definition M (W A : Type) : Type := W → result A * W.

Definition throw {W A} (exn : Exception) : M W A := λ w, (inl exn, w).

Definition pure {W A} (r : result A) : M W A := λ w, (r, w).

#[global] Instance M_ret {W} : MRet (M W) := λ A x w, (inr x, w).

#[global] Instance M_bind {W} : MBind (M W) := λ A B f c w,
  match c w with
  | (inl exn, w') => (inl exn, w')
  | (inr x, w') => f x w'
  end.

(** ** src/commands/context.ts *)

Module CommandContext.

Record t := mk {
  dbIndex : Z;
  clientId : option string;
}.

(** [new CommandContext(params)], [params] defaulting to [{ dbIndex: 0 }]. *)
Definition new (params : option t) : t :=
  let params := default {| dbIndex := 0; clientId := None |} params in
  {| dbIndex := dbIndex params; clientId := clientId params |}.

Definition withDatabase (dbIndex : Z) (this : t) : t :=
  new (Some {| dbIndex := dbIndex; clientId := clientId this |}).

End CommandContext.

(** ** src/engine/engine.ts *)

Module Engine.

Record t := mk {
  databases : list loc;
  dbCount : Z;
}.

(** Modelled from the spec: the constant [DEFAULT_DB_COUNT] of
    [src/configs], which is not among the sources; the spec gives the
    default database count as 16. *)
Definition DEFAULT_DB_COUNT : Z := 16.

(** [Array.from({ length: n }, () => new Database())]: the callback runs
    once per index, in order, each run constructing a database. *)
Fixpoint from (n : nat) (h : gmap loc Database.t)
    : list loc * gmap loc Database.t :=
  match n with
  | O => ([], h)
  | S n' =>
      let '(l, h1) := alloc Database.new h in
      let '(ls, h2) := from n' h1 in
      (l :: ls, h2)
  end.

(** [new Engine(dbCount)] over the store of databases, where
    [Array.from] returns ([constructor] below has the other case).  A
    negative length makes an empty array. *)
Definition new (dbCount : option Z) (h : gmap loc Database.t)
    : t * gmap loc Database.t :=
  let dbCount := default DEFAULT_DB_COUNT dbCount in
  let '(ls, h') := from (Z.to_nat dbCount) h in
  ({| databases := ls; dbCount := dbCount |}, h').

(** [getDatabase(index)]; [None] is the [undefined] of an array read out
    of range. *)
Definition getDatabase (index : Z) (this : t) : result (option loc) :=
  if bool_decide (index < 0 ∨ index >= dbCount this)
  then inl (Error "Database index out of range")
  else inr (databases this !! Z.to_nat index).

(** [new Engine(dbCount)] for every integer count: an array cannot have
    2^32 elements or more, and [Array.from] throws a [RangeError] (whose
    message is the engine's) before any database is constructed. *)
Definition constructor (dbCount : option Z) (h : gmap loc Database.t)
    : result (t * gmap loc Database.t) :=
  if bool_decide (2 ^ 32 ≤ default DEFAULT_DB_COUNT dbCount)
  then inl (RangeError "Invalid array length")
  else inr (new dbCount h).

(** [getDatabase(index)] for every number [index], integer or not;
    [getDatabase] above is its restriction to integers.  A comparison
    with [NaN] is false, so [NaN] passes both tests; reading an array at
    a number that is not one of its indices gives [undefined]. *)
Definition getDatabase_at (index : Js.number) (this : t)
    : result (option loc) :=
  match index with
  | Js.NaN => inr None
  | Js.PosInfinity => inl (Error "Database index out of range")
  | Js.NegInfinity => inl (Error "Database index out of range")
  | Js.Finite q =>
      if (Qnum q <? 0) || (dbCount this * Z.pos (Qden q) <=? Qnum q)
      then inl (Error "Database index out of range")
      else if Qnum q mod Z.pos (Qden q) =? 0
           then inr (databases this !! Z.to_nat (Qnum q / Z.pos (Qden q)))
           else inr None
  end.

(** A method call [db.m(...)] through the reference [db]. *)
Definition call (db : loc) (op : Database.Op) (h : gmap loc Database.t)
    : gmap loc Database.t :=
  alter (Database.step op) db h.

(** What [db.get(key)] returns through the reference [db]. *)
Definition get_result (now : Z) (key : string) (db : loc)
    (h : gmap loc Database.t) : option (option loc) :=
  (λ d, fst (Database.get now key d)) <$> h !! db.

(** Calls through references, first call first. *)
Definition calls (ops : list (loc * Database.Op)) (h : gmap loc Database.t)
    : gmap loc Database.t :=
  foldl (λ h' c, call (fst c) (snd c) h') h ops.

End Engine.

(** ** src/commands/command.ts *)

Module Command.

Record Arity := mkArity {
  min : Z;
  max : Z;
}.

(** The abstract class, over the world [W] its methods may act on.
    [TArgs] and [TResult] default to [any]: both are [Js.unknown].  The
    optional [parse] is [None] when a subclass does not define it. *)
Record t (W : Type) := mk {
  name : string;
  arity : Arity;
  isWrite : bool;
  execute : Engine.t → CommandContext.t → Js.unknown → M W Js.unknown;
  parse : option (list Js.unknown → M W Js.unknown);
}.

Arguments name {W} _.
Arguments arity {W} _.
Arguments isWrite {W} _.
Arguments execute {W} _ _ _ _ _.
Arguments parse {W} _.

End Command.

(** ** src/commands/registry.ts *)

Module CommandRegistry.

Section registry.
Context {W : Type}.

Record t := mk {
  commands : gmap string (Command.t W);
}.

(** A freshly constructed registry. *)
Definition new : t := {| commands := ∅ |}.

(** [register(command)]: the registry after the call, or the thrown
    error. *)
Definition register (command : Command.t W) (this : t) : result t :=
  let commandName := Js.toUpperCase (Command.name command) in
  if bool_decide (is_Some (commands this !! commandName))
  then inl (Thrown (Errors.CommandError_new
              ("Command '" +:+ commandName +:+ "' is already registered")
              None))
  else inr {| commands := <[commandName := command]> (commands this) |}.

(** [get(name)]; [None] is [null]. *)
Definition get (name : string) (this : t) : option (Command.t W) :=
  commands this !! Js.toUpperCase name.

(** The registry after registering the commands in order, or the first
    error thrown. *)
Fixpoint register_all (cmds : list (Command.t W)) (this : t) : result t :=
  match cmds with
  | [] => inr this
  | c :: rest =>
      match register c this with
      | inl exn => inl exn
      | inr this' => register_all rest this'
      end
  end.

End registry.

Arguments t W : clear implicits.

End CommandRegistry.

(** ** src/commands/registry.ts, with the iteration order of the map *)

(** A [Map<string, V>] as JavaScript iterates it: the entries in the
    order their keys were first inserted. *)
Module JsMap.

Section map.
Context {V : Type}.

Definition t : Type := list (string * V).

Fixpoint get (key : string) (m : t) : option V :=
  match m with
  | [] => None
  | (k, v) :: rest => if String.eqb k key then Some v else get key rest
  end.

Definition has (key : string) (m : t) : bool :=
  match get key m with
  | Some _ => true
  | None => false
  end.

(** [m.set(key, value)]: a key already there keeps its place, a new one
    goes last. *)
Fixpoint set (key : string) (value : V) (m : t) : t :=
  match m with
  | [] => [(key, value)]
  | (k, v) :: rest =>
      if String.eqb k key then (k, value) :: rest
      else (k, v) :: set key value rest
  end.

(** [Array.from(m.values())]. *)
Definition values (m : t) : list V := map snd m.

End map.

Arguments t V : clear implicits.

End JsMap.

Module OrderedRegistry.

Section registry.
Context {W : Type}.

Record t := mk {
  commands : JsMap.t (Command.t W);
}.

Definition new : t := {| commands := [] |}.

Definition register (command : Command.t W) (this : t) : result t :=
  let commandName := Js.toUpperCase (Command.name command) in
  if JsMap.has commandName (commands this)
  then inl (Thrown (Errors.CommandError_new
              ("Command '" +:+ commandName +:+ "' is already registered")
              None))
  else inr {| commands := JsMap.set commandName command (commands this) |}.

Definition get (name : string) (this : t) : option (Command.t W) :=
  JsMap.get (Js.toUpperCase name) (commands this).

Definition list (this : t) : Datatypes.list (Command.t W) :=
  JsMap.values (commands this).

Fixpoint register_all (cmds : Datatypes.list (Command.t W)) (this : t)
    : result t :=
  match cmds with
  | [] => inr this
  | c :: rest =>
      match register c this with
      | inl exn => inl exn
      | inr this' => register_all rest this'
      end
  end.

(** The registry as a lookup table, its order forgotten. *)
Definition view (this : t) : CommandRegistry.t W :=
  {| CommandRegistry.commands := list_to_map (commands this) |}.

End registry.

Arguments t W : clear implicits.

End OrderedRegistry.

(** ** src/commands/dispatcher.ts *)

Module CommandDispatcher.

Section dispatcher.
Context {W : Type}.

Record t := mk {
  engine : Engine.t;
  registry : CommandRegistry.t W;
}.

Definition dispatch (this : t) (commandName : string)
    (rawArgs : list Js.unknown) (context : CommandContext.t)
    : M W Js.unknown :=
  match CommandRegistry.get commandName (registry this) with
  | None => throw (Thrown (Errors.UnknownCommandError_new commandName))
  | Some command =>
      if bool_decide
           (Z.of_nat (length rawArgs) < Command.min (Command.arity command)
            ∨ Z.of_nat (length rawArgs) > Command.max (Command.arity command))
      then throw (Thrown (Errors.ArityError_new commandName None))
      else
        args ← match Command.parse command with
               | Some parse => parse rawArgs
               | None => mret (Js.Arr rawArgs)
               end;
        Command.execute command (engine this) context args
  end.

End dispatcher.

Arguments t W : clear implicits.

End CommandDispatcher.

(** ** src/commands/handlers/string.ts *)

Module SetCommand.

Section parse.
Variable numToString : Js.number → string.

(** The binding of the identifier [errors], which [parse] reads and
    pushes to but never declares: [None] when no enclosing scope binds
    it, [Some acc] when one binds it to the array [acc]. *)
Definition Scope : Type := option (list Errors.Detail).

(** The callback of [rawArgs.map]: the string the argument maps to, and
    the accumulator after the call.  [String(arg)] may throw (the text
    of its [TypeError] is the engine's). *)
Definition parse_arg (arg : Js.unknown) (errors : Scope)
    : result string * Scope :=
  match Js.String_ numToString arg with
  | None =>
      (inl (TypeError "Cannot convert object to primitive value"), errors)
  | Some stringArg =>
      if bool_decide (stringArg = "") then
        match errors with
        | None => (inl (ReferenceError "errors"), errors)
        | Some acc =>
            (inr "",
             Some (acc ++
                   [Errors.DObj
                      [("detailMsg",
                        Js.Str ("Argument '" +:+ stringArg
                                  +:+ "' is not a valid string"));
                       ("arg", arg)]]))
        end
      else (inr stringArg, errors)
  end.

(** [rawArgs.map(callback)]: left to right, stopping at the first throw. *)
Fixpoint map_args (rawArgs : list Js.unknown) (errors : Scope)
    : result (list string) * Scope :=
  match rawArgs with
  | [] => (inr [], errors)
  | arg :: rest =>
      match parse_arg arg errors with
      | (inl exn, errors') => (inl exn, errors')
      | (inr s, errors') =>
          match map_args rest errors' with
          | (inl exn, errors'') => (inl exn, errors'')
          | (inr ss, errors'') => (inr (s :: ss), errors'')
          end
      end
  end.

(** The body of [parse], run where [errors] is bound as [errors]. *)
Definition parse_in (errors : Scope) (rawArgs : list Js.unknown)
    : result Js.unknown :=
  match map_args rawArgs errors with
  | (inl exn, _) => inl exn
  | (inr args, None) => inl (ReferenceError "errors")
  | (inr args, Some acc) =>
      if bool_decide (0 < length acc)%nat then
        inl (Thrown
               (Errors.addDetails (inr acc)
                  (Errors.InvalidArgumentError_new
                     "Invalid argument(s) for SET command" None)))
      else
        let args := map Js.Str args in
        inr (Js.Obj [("key", Js.index args 0); ("value", Js.index args 1)])
  end.

(** [parse] as the module has it: neither the method, the class nor the
    module declares [errors]. *)
Definition parse (rawArgs : list Js.unknown) : result Js.unknown :=
  parse_in None rawArgs.

(** The failure [parse_arg] pushes for an argument: its string is empty
    when it does, so the message always quotes the empty string. *)
Definition failure (arg : Js.unknown) : Errors.Detail :=
  Errors.DObj [("detailMsg", Js.Str "Argument '' is not a valid string");
               ("arg", arg)].

(** The arguments whose string is empty. *)
Definition offending (rawArgs : list Js.unknown) : list Js.unknown :=
  filter (λ arg, Js.String_ numToString arg = Some "") rawArgs.

(** The command object.  Line 109 of the source, the body of [execute],
    is not well-formed TypeScript, so [execute] is left to the caller. *)
Definition command {W}
    (execute : Engine.t → CommandContext.t → Js.unknown → M W Js.unknown)
    : Command.t W :=
  {| Command.name := "SET";
     Command.arity := {| Command.min := 2; Command.max := 2 |};
     Command.isWrite := true;
     Command.execute := execute;
     Command.parse := Some (λ rawArgs, pure (parse rawArgs)) |}.

End parse.

End SetCommand.

(** ** The world commands run in *)

(** The store of [ValueEntry] objects, the store of [Database] objects
    and the reading [Date.now()] gives while one command runs. *)
Record World := mkWorld {
  entries : gmap loc ValueEntry.t;
  dbs : gmap loc Database.t;
  clock : Z;
}.

Definition with_dbs (h : gmap loc Database.t) (w : World) : World :=
  {| entries := entries w; dbs := h; clock := clock w |}.

(** ** EXPIRE *)

Module ExpireCommand.

(** Modelled from the spec: the structured arguments of EXPIRE, a key
    and a number of seconds ([src/commands/handlers/ttl.ts] is not among
    the sources). *)
Record Args := mkArgs {
  key : string;
  seconds : Z;
}.

(** Modelled from the spec: the value of a number that is a strictly
    positive integer; zero, negative and non-integer numbers have none. *)
Definition positive_integer (n : Js.number) : option Z :=
  match n with
  | Js.Finite q =>
      if (Qnum q mod Z.pos (Qden q) =? 0) && (0 <? Qnum q)
      then Some (Qnum q / Z.pos (Qden q))
      else None
  | _ => None
  end.

(** Modelled from the spec: the key is string-shaped. *)
Definition check_key (arg : Js.unknown) : option string :=
  match arg with
  | Js.Str s => Some s
  | _ => None
  end.

(** Modelled from the spec: [seconds] is a strictly positive integer. *)
Definition check_seconds (arg : Js.unknown) : option Z :=
  match arg with
  | Js.Num n => positive_integer n
  | _ => None
  end.

(** Modelled from the spec: the description of one offending argument in
    an invalid-argument error. *)
Definition offending (name : string) (arg : Js.unknown) : Errors.Detail :=
  Errors.DObj
    [("detailMsg", Js.Str ("Argument '" +:+ name +:+ "' is not valid"));
     ("arg", arg)].

(** Modelled from the spec: EXPIRE's parse.  It validates the key and the
    seconds and signals one invalid-argument error listing every offending
    argument; it reads no state. *)
Definition parse (rawArgs : list Js.unknown) : result Args :=
  let rawKey := Js.index rawArgs 0 in
  let rawSeconds := Js.index rawArgs 1 in
  match check_key rawKey, check_seconds rawSeconds with
  | Some key, Some seconds => inr {| key := key; seconds := seconds |}
  | okKey, okSeconds =>
      inl (Thrown
             (Errors.addDetails
                (inr (match okKey with
                      | Some _ => []
                      | None => [offending "key" rawKey]
                      end ++
                      match okSeconds with
                      | Some _ => []
                      | None => [offending "seconds" rawSeconds]
                      end))
                (Errors.InvalidArgumentError_new
                   "Invalid argument(s) for EXPIRE command" None)))
  end.

(** Modelled from the spec: EXPIRE's execute.  It calls [get] on the
    selected database; when the key is absent it returns 0, otherwise it
    calls [setExpiry] with the current time plus [seconds] in
    milliseconds and returns 1. *)
Definition execute (engine : Engine.t) (context : CommandContext.t)
    (args : Args) : M World Z := λ w,
  match Engine.getDatabase (CommandContext.dbIndex context) engine with
  | inl exn => (inl exn, w)
  | inr None => (inl (TypeError "undefined is not an object"), w)
  | inr (Some db) =>
      let now := clock w in
      let entry := Engine.get_result now (key args) db (dbs w) in
      let h1 := Engine.call db (Database.OpGet now (key args)) (dbs w) in
      match entry with
      | None => (inl (TypeError "undefined is not an object"), w)
      | Some None => (inr 0, with_dbs h1 w)
      | Some (Some _) =>
          let timestamp := now + seconds args * 1000 in
          (inr 1,
           with_dbs
             (Engine.call db (Database.OpSetExpiry (key args) timestamp) h1)
             w)
      end
  end.

(** Modelled from the spec: the structured arguments as the object
    [{ key, seconds }] the dispatcher hands from parse to execute. *)
Definition encode (args : Args) : Js.unknown :=
  Js.Obj [("key", Js.Str (key args));
          ("seconds", Js.Num (Js.Finite (seconds args # 1)))].

(** Modelled from the spec: reading [{ key, seconds }] back. *)
Definition decode (args : Js.unknown) : option Args :=
  match Js.field "key" args, Js.field "seconds" args with
  | Js.Str key, Js.Num (Js.Finite q) =>
      Some {| key := key; seconds := Qnum q / Z.pos (Qden q) |}
  | _, _ => None
  end.

(** Modelled from the spec: the EXPIRE command object, arity exactly 2,
    a write command. *)
Definition command : Command.t World :=
  {| Command.name := "EXPIRE";
     Command.arity := {| Command.min := 2; Command.max := 2 |};
     Command.isWrite := true;
     Command.execute := λ engine context args,
       match decode args with
       | Some a =>
           λ w, match execute engine context a w with
                | (inl exn, w') => (inl exn, w')
                | (inr n, w') => (inr (Js.Num (Js.Finite (n # 1))), w')
                end
       | None => throw (TypeError "malformed arguments")
       end;
     Command.parse := Some (λ rawArgs,
       pure (match parse rawArgs with
             | inl exn => inl exn
             | inr a => inr (encode a)
             end)) |}.

End ExpireCommand.

(** * Properties *)

(** ** The database *)

Module DatabaseFacts.
Import Database.

Lemma isExpired_true now key db :
  isExpired now key db = true ↔
  ∃ expiry, expirations db !! key = Some expiry ∧ expiry ≤ now.
Proof.
  unfold isExpired. destruct (expirations db !! key) as [expiry|].
  - rewrite bool_decide_eq_true. split.
    + intros ?. by exists expiry.
    + by intros (e & [= <-] & ?).
  - split; [done | by intros (e & ? & ?)].
Qed.

Lemma isExpired_false now key db :
  isExpired now key db = false ↔
  (expirations db !! key = None ∨
   ∃ expiry, expirations db !! key = Some expiry ∧ now < expiry).
Proof.
  unfold isExpired. destruct (expirations db !! key) as [expiry|].
  - rewrite bool_decide_eq_false. split.
    + intros ?. right. exists expiry. split; [done | lia].
    + intros [? | (e & [= <-] & ?)]; [done | lia].
  - split; [by left | done].
Qed.

Lemma delete_keyspace key key' db :
  keyspace (delete key db) !! key' =
  if decide (key = key') then None else keyspace db !! key'.
Proof. unfold delete; simpl. apply lookup_delete. Qed.

Lemma delete_expirations key key' db :
  expirations (delete key db) !! key' =
  if decide (key = key') then None else expirations db !! key'.
Proof. unfold delete; simpl. apply lookup_delete. Qed.

Lemma get_expired now key db :
  isExpired now key db = true → get now key db = (None, delete key db).
Proof. unfold get. by intros ->. Qed.

Lemma get_live now key db :
  isExpired now key db = false → get now key db = (keyspace db !! key, db).
Proof. unfold get. by intros ->. Qed.

(** A key with no expiry and no entry reads as absent, at any time, and
    reading it changes nothing. *)
Lemma get_gone now key db :
  keyspace db !! key = None → expirations db !! key = None →
  get now key db = (None, db).
Proof.
  intros Hk He. rewrite get_live; [by rewrite Hk |].
  apply isExpired_false. by left.
Qed.

Lemma get_many_gone nows key db :
  keyspace db !! key = None → expirations db !! key = None →
  get_many nows key db = (replicate (length nows) None, db).
Proof.
  intros Hk He. induction nows as [|now nows IH]; [done |].
  simpl. by rewrite get_gone, IH.
Qed.

(** Each method keeps the invariant. *)
Lemma invariant_new : invariant new.
Proof. intros key [x Hx]. simpl in Hx. by rewrite lookup_empty in Hx. Qed.

Lemma invariant_delete key db : invariant db → invariant (delete key db).
Proof.
  intros Hinv key'. rewrite delete_keyspace, delete_expirations.
  case_decide; [by intros [? ?] | apply Hinv].
Qed.

Lemma invariant_set key entry db : invariant db → invariant (set key entry db).
Proof.
  intros Hinv key'. unfold set; simpl. intros He%Hinv.
  rewrite lookup_insert. case_decide; [by eexists | done].
Qed.

Lemma invariant_setExpiry key ts db :
  invariant db → invariant (setExpiry key ts db).
Proof.
  intros Hinv key'. unfold setExpiry. case_bool_decide as Hk; [apply Hinv |].
  simpl. rewrite lookup_insert. case_decide as Heq.
  - subst key'. intros _. by apply not_eq_None_Some.
  - apply Hinv.
Qed.

Lemma invariant_get now key db : invariant db → invariant (snd (get now key db)).
Proof.
  intros Hinv. unfold get. destruct (isExpired now key db); simpl;
    [by apply invariant_delete | done].
Qed.

Lemma invariant_step op db : invariant db → invariant (step op db).
Proof.
  destruct op; simpl;
    eauto using invariant_get, invariant_set, invariant_delete,
                invariant_setExpiry.
Qed.

Lemma invariant_run ops db : invariant db → invariant (run ops db).
Proof.
  revert db. induction ops as [|op ops IH]; intros db Hinv; [done |].
  apply IH. by apply invariant_step.
Qed.


(** C1: for every key, [get] on a key whose recorded expiry is at or
    before the current time removes the key from both the keyspace and
    the expirations map (and nothing else from either) and returns
    absent; on any other key it returns the stored entry, or absent when
    the key has none, and changes nothing.  After an expired key has
    been read, every further [get] on it, at any time, returns absent. *)
Theorem get_lazy_expiry (now : Z) (key : string) (db : t) :
  (∀ expiry,
     expirations db !! key = Some expiry → expiry ≤ now →
     fst (get now key db) = None
     ∧ keyspace (snd (get now key db)) !! key = None
     ∧ expirations (snd (get now key db)) !! key = None
     ∧ (∀ key', key' ≠ key →
          keyspace (snd (get now key db)) !! key' = keyspace db !! key'
          ∧ expirations (snd (get now key db)) !! key'
            = expirations db !! key')
     ∧ (∀ nows,
          fst (get_many nows key (snd (get now key db)))
          = replicate (length nows) None))
  ∧ ((expirations db !! key = None
      ∨ ∃ expiry, expirations db !! key = Some expiry ∧ now < expiry) →
     get now key db = (keyspace db !! key, db))
  ∧ (keyspace db !! key = None → fst (get now key db) = None).
Proof.
  split; [|split].
  - intros expiry He Hle.
    assert (isExpired now key db = true) as Hexp.
    { apply isExpired_true. eauto. }
    rewrite (get_expired _ _ _ Hexp). cbn [fst snd].
    assert (keyspace (delete key db) !! key = None) as Hk.
    { rewrite delete_keyspace. by case_decide. }
    assert (expirations (delete key db) !! key = None) as Hx.
    { rewrite delete_expirations. by case_decide. }
    repeat split; try done.
    + rewrite delete_keyspace. by case_decide.
    + rewrite delete_expirations. by case_decide.
    + intros nows. by rewrite get_many_gone.
  - intros Hlive%isExpired_false. by apply get_live.
  - intros Hk. unfold get. destruct (isExpired now key db); [done |].
    by simpl.
Qed.

(** C2: [set] writes the keyspace entry of its key and nothing else: the
    expirations map is the same map afterwards, the other keyspace
    entries are untouched, and every expiry recorded before the call is
    recorded, with the same instant, after it. *)
Theorem set_preserves_ttl (key : string) (entry : loc) (db : t) :
  expirations (set key entry db) = expirations db
  ∧ keyspace (set key entry db) !! key = Some entry
  ∧ (∀ key', key' ≠ key →
       keyspace (set key entry db) !! key' = keyspace db !! key')
  ∧ (∀ key' expiry,
       expirations db !! key' = Some expiry →
       expirations (set key entry db) !! key' = Some expiry).
Proof.
  unfold set; simpl. repeat split.
  - apply lookup_insert_eq.
  - intros key' Hne. by apply lookup_insert_ne.
  - done.
Qed.

(** C3: in every state reached from a freshly constructed database by
    any sequence of [get], [set], [delete], [setExpiry] and [isExpired]
    calls, every key of the expirations map is a key of the keyspace;
    [setExpiry] on a key absent from the keyspace changes nothing, and
    [delete] removes its key from both maps. *)
Theorem expirations_within_keyspace :
  (∀ ops, invariant (run ops new))
  ∧ (∀ key ts db, keyspace db !! key = None → setExpiry key ts db = db)
  ∧ (∀ key db,
       keyspace (delete key db) !! key = None
       ∧ expirations (delete key db) !! key = None).
Proof.
  split; [|split].
  - intros ops. apply invariant_run, invariant_new.
  - intros key ts db Hk. unfold setExpiry. by rewrite bool_decide_eq_true_2.
  - intros key db. rewrite delete_keyspace, delete_expirations.
    by case_decide.
Qed.

(** The three cases of [get_lazy_expiry] on a database holding one key
    that expires at instant 5. *)
Lemma get_lazy_expiry_witness :
  let db := {| keyspace := {["k" := 1%positive]};
               expirations := {["k" := 5]} |} in
  fst (get 9 "k" db) = None
  ∧ get 3 "k" db = (keyspace db !! "k", db)
  ∧ fst (get 9 "other" db) = None.
Proof.
  intros db. split; [|split].
  - apply (proj1 (get_lazy_expiry 9 "k" db) 5); [reflexivity | lia].
  - apply (proj1 (proj2 (get_lazy_expiry 3 "k" db))).
    right. exists 5. split; [reflexivity | lia].
  - apply (proj2 (proj2 (get_lazy_expiry 9 "other" db))). reflexivity.
Defined.

(** An expiry at instant 5 on ["k"] survives overwriting ["k"]. *)
Lemma set_preserves_ttl_witness :
  let db := {| keyspace := {["k" := 1%positive]};
               expirations := {["k" := 5]} |} in
  expirations (set "k" 2%positive db) !! "k" = Some 5.
Proof.
  intros db.
  apply (proj2 (proj2 (proj2 (set_preserves_ttl "k" 2%positive db)))).
  reflexivity.
Defined.

(** The invariant after a write, an expiry, an overwrite and an
    expired read; an expiry on a key that was never written. *)
Lemma expirations_within_keyspace_witness :
  invariant (run [OpSet "k" 1%positive; OpSetExpiry "k" 5;
                  OpSet "k" 2%positive; OpGet 9 "k"] new)
  ∧ setExpiry "ghost" 5 new = new.
Proof.
  destruct expirations_within_keyspace as (Hinv & Hnoop & _).
  split; [apply Hinv | apply Hnoop; reflexivity].
Defined.

End DatabaseFacts.

(** ** Value entries *)

Module ValueEntryFacts.
Import ValueEntry.

Lemma alloc_fresh {A} (x : A) (h : gmap loc A) :
  h !! fst (alloc x h) = None.
Proof. unfold alloc; simpl. apply not_elem_of_dom, is_fresh. Qed.

Lemma alloc_lookup {A} (x : A) (h : gmap loc A) (l : loc) :
  snd (alloc x h) !! l =
  if decide (fst (alloc x h) = l) then Some x else h !! l.
Proof. unfold alloc; simpl. apply lookup_insert. Qed.

(** C9: for every stored entry [e] (reached through the reference
    [this]) and every new value, [cloneWithValue] returns a reference to
    an entry with [e]'s type and [createdAt], the new value, and
    [updatedAt] stamped with the clock reading of the call; the
    reference is new (different from [this] and from every reference
    already in use), and [e] and every other existing entry are
    unchanged. *)
Theorem cloneWithValue_fresh_copy (now : Z) (this : loc)
    (value : Js.unknown) (h : gmap loc t) (e : t) :
  h !! this = Some e →
  ∃ l h',
    cloneWithValue now this value h = Some (l, h')
    ∧ h' !! l = Some {| type := type e; value := value;
                        createdAt := createdAt e; updatedAt := now |}
    ∧ l ≠ this
    ∧ h !! l = None
    ∧ h' !! this = Some e
    ∧ (∀ l0, l0 ≠ l → h' !! l0 = h !! l0).
Proof.
  intros Hthis. unfold cloneWithValue, new. rewrite Hthis.
  set (e' := constructor now (type e) value (Some (createdAt e))).
  exists (fst (alloc e' h)), (snd (alloc e' h)).
  pose proof (alloc_fresh e' h) as Hfresh.
  assert (fst (alloc e' h) ≠ this) as Hne by congruence.
  repeat split; try done.
  - rewrite alloc_lookup. by case_decide.
  - rewrite alloc_lookup. by case_decide.
  - intros l0 Hl0. rewrite alloc_lookup. by case_decide.
Qed.

(** Cloning the only entry of a store. *)
Lemma cloneWithValue_fresh_copy_witness :
  let e := {| type := TString; value := Js.Str "a";
              createdAt := 10; updatedAt := 10 |} in
  ∃ l h',
    cloneWithValue 20 1%positive (Js.Str "b") {[1%positive := e]}
      = Some (l, h')
    ∧ h' !! l = Some {| type := TString; value := Js.Str "b";
                        createdAt := 10; updatedAt := 20 |}
    ∧ l ≠ 1%positive
    ∧ h' !! 1%positive = Some e.
Proof.
  intros e.
  destruct (cloneWithValue_fresh_copy 20 1%positive (Js.Str "b")
              {[1%positive := e]} e) as (l & h' & ? & ? & ? & ? & ? & ?);
    [reflexivity |].
  by exists l, h'.
Defined.

End ValueEntryFacts.

(** ** The engine *)

Module EngineFacts.
Import Engine.

(** What [Array.from] allocates: as many references as asked, pairwise
    distinct, none of them in use before, each pointing to an empty
    database; the rest of the store is as it was. *)
Lemma from_spec n h ls h' :
  from n h = (ls, h') →
  length ls = n
  ∧ NoDup ls
  ∧ (∀ l, l ∈ ls → h !! l = None ∧ h' !! l = Some Database.new)
  ∧ (∀ l, l ∉ ls → h' !! l = h !! l).
Proof.
  revert h ls h'. induction n as [|n IH]; intros h ls h' Hfrom.
  - injection Hfrom as <- <-. split; [done |]. split; [constructor |].
    split; [|done]. by intros l0 ?%elem_of_nil.
  - simpl in Hfrom.
    set (a := fresh (dom h)) in *.
    destruct (from n (<[a:=Database.new]> h)) as [ls' h2] eqn:Hrec.
    injection Hfrom as <- <-.
    destruct (IH _ _ _ Hrec) as (Hlen & Hnd & Hnew & Hold).
    assert (h !! a = None) as Ha by apply not_elem_of_dom, is_fresh.
    assert (a ∉ ls') as Hnotin.
    { intros [Hnone _]%Hnew. by rewrite lookup_insert_eq in Hnone. }
    split; [|split; [|split]].
    + simpl. by rewrite Hlen.
    + by constructor.
    + intros l0 [-> | Hin]%elem_of_cons.
      * by rewrite Hold, lookup_insert_eq.
      * destruct (Hnew _ Hin) as [Hnone Hsome]. split; [|done].
        by apply lookup_insert_None in Hnone as [? _].
    + intros l0 Hl0. apply not_elem_of_cons in Hl0 as [Hne Hl0].
      rewrite Hold by done. by apply lookup_insert_ne.
Qed.

(** A call through one reference leaves every other database alone. *)
Lemma call_frame db db' op h :
  db ≠ db' → call db op h !! db' = h !! db'.
Proof. intros Hne. unfold call. by apply lookup_alter_ne. Qed.

Lemma call_is_Some db db' op h :
  is_Some (call db op h !! db') ↔ is_Some (h !! db').
Proof.
  unfold call. rewrite lookup_alter. case_decide; [|done].
  subst. apply fmap_is_Some.
Qed.

Lemma calls_is_Some ops db h :
  is_Some (calls ops h !! db) ↔ is_Some (h !! db).
Proof.
  revert h. induction ops as [|[l op] ops IH]; intros h; [done |].
  simpl. rewrite IH. apply call_is_Some.
Qed.

(** Inside the declared range, [getDatabase] returns the reference
    stored at that index. *)
Lemma getDatabase_in_range index e :
  0 ≤ index < dbCount e →
  getDatabase index e = inr (databases e !! Z.to_nat index).
Proof.
  intros Hrange. unfold getDatabase.
  rewrite bool_decide_eq_false_2; [done | lia].
Qed.

Lemma getDatabase_out_of_range index e :
  index < 0 ∨ dbCount e ≤ index →
  getDatabase index e = inl (Error "Database index out of range").
Proof.
  intros Hrange. unfold getDatabase.
  rewrite bool_decide_eq_true_2; [done | lia].
Qed.

(** C10: for every engine, built by the constructor over any store, and
    after any sequence of database calls, two distinct valid indices give
    two distinct database references, both pointing into the store; any
    call ([set], [delete], [setExpiry], and [get] and [isExpired] too)
    made through the first leaves the database behind the second, and
    so the result of every [get] through it, unchanged. *)
Theorem databases_disjoint (dbCount : option Z) (h0 : gmap loc Database.t)
    (e : t) (h1 : gmap loc Database.t) (ops : list (loc * Database.Op))
    (i j : Z) :
  new dbCount h0 = (e, h1) →
  0 ≤ i < Engine.dbCount e → 0 ≤ j < Engine.dbCount e → i ≠ j →
  ∃ li lj,
    getDatabase i e = inr (Some li)
    ∧ getDatabase j e = inr (Some lj)
    ∧ li ≠ lj
    ∧ is_Some (calls ops h1 !! li)
    ∧ is_Some (calls ops h1 !! lj)
    ∧ ∀ op now key,
        call li op (calls ops h1) !! lj = calls ops h1 !! lj
        ∧ get_result now key lj (call li op (calls ops h1))
          = get_result now key lj (calls ops h1).
Proof.
  unfold new. intros Hnew Hi Hj Hij.
  destruct (from _ h0) as [ls h'] eqn:Hfrom.
  injection Hnew as <- <-. simpl in Hi, Hj.
  destruct (from_spec _ _ _ _ Hfrom) as (Hlen & Hnd & Hfresh & _).
  destruct (lookup_lt_is_Some_2 ls (Z.to_nat i)) as [li Hli]; [lia |].
  destruct (lookup_lt_is_Some_2 ls (Z.to_nat j)) as [lj Hlj]; [lia |].
  assert (li ≠ lj) as Hne.
  { intros ->. pose proof (NoDup_lookup _ _ _ _ Hnd Hli Hlj). lia. }
  exists li, lj. repeat split.
  - rewrite getDatabase_in_range by done. simpl. by rewrite Hli.
  - rewrite getDatabase_in_range by done. simpl. by rewrite Hlj.
  - done.
  - apply calls_is_Some.
    destruct (Hfresh li) as [_ ->]; [by eapply list_elem_of_lookup_2 | done].
  - apply calls_is_Some.
    destruct (Hfresh lj) as [_ ->]; [by eapply list_elem_of_lookup_2 | done].
  - by apply call_frame.
  - unfold get_result. by rewrite call_frame.
Qed.

(** An engine of three databases: a write and an expiry through
    database 0 do not show through database 2. *)
Lemma databases_disjoint_witness :
  let '(e, h1) := new (Some 3) ∅ in
  ∃ li lj,
    getDatabase 0 e = inr (Some li)
    ∧ getDatabase 2 e = inr (Some lj)
    ∧ li ≠ lj
    ∧ get_result 7 "k" lj (call li (Database.OpSet "k" 1%positive) h1)
      = get_result 7 "k" lj h1.
Proof.
  destruct (new (Some 3) ∅) as [e h1] eqn:Hnew.
  destruct (databases_disjoint (Some 3) ∅ e h1 [] 0 2 Hnew)
    as (li & lj & ? & ? & ? & _ & _ & Hframe).
  - injection Hnew as <- _. simpl. lia.
  - injection Hnew as <- _. simpl. lia.
  - lia.
  - exists li, lj. repeat split; try done.
    apply (Hframe (Database.OpSet "k" 1%positive) 7 "k").
Defined.

End EngineFacts.

(** ** The registry and the dispatcher *)

Module DispatcherFacts.
Import CommandDispatcher.

Section facts.
Context {W : Type}.
Implicit Types (d : CommandDispatcher.t W) (r : CommandRegistry.t W).
Implicit Types (command : Command.t W) (w : W).




(** The three stages of [dispatch]. *)
Lemma dispatch_unknown d commandName rawArgs context w :
  CommandRegistry.get commandName (registry d) = None →
  dispatch d commandName rawArgs context w
  = (inl (Thrown (Errors.UnknownCommandError_new commandName)), w).
Proof. unfold dispatch. by intros ->. Qed.

Lemma dispatch_arity d commandName rawArgs context w command :
  CommandRegistry.get commandName (registry d) = Some command →
  Z.of_nat (length rawArgs) < Command.min (Command.arity command)
  ∨ Command.max (Command.arity command) < Z.of_nat (length rawArgs) →
  dispatch d commandName rawArgs context w
  = (inl (Thrown (Errors.ArityError_new commandName None)), w).
Proof.
  unfold dispatch. intros -> Harity.
  rewrite bool_decide_eq_true_2; [done | lia].
Qed.

Lemma dispatch_run d commandName rawArgs context w command :
  CommandRegistry.get commandName (registry d) = Some command →
  Command.min (Command.arity command) ≤ Z.of_nat (length rawArgs)
    ≤ Command.max (Command.arity command) →
  dispatch d commandName rawArgs context w
  = (args ← match Command.parse command with
            | Some parse => parse rawArgs
            | None => mret (Js.Arr rawArgs)
            end;
     Command.execute command (engine d) context args) w.
Proof.
  unfold dispatch. intros -> Harity.
  rewrite bool_decide_eq_false_2; [done | lia].
Qed.


End facts.


(** C5: evaluated on SET (arity 2..2) called with one argument.  The
    count is outside the bounds and [dispatch] throws an [ArityError]
    before [parse]; the error is built from the command name alone, so
    its message reads [expected 0..0, got 0] and its [argsCount] is 0,
    where the bounds are 2..2 and the count is 1: it is not the error
    [ArityError] builds when given the bounds and the count. *)
Theorem dispatch_arity_error_loses_counts {W : Type}
    (numToString : Js.number → string)
    (execute : Engine.t → CommandContext.t → Js.unknown → M W Js.unknown)
    (engine : Engine.t) (context : CommandContext.t) (w : W) :
  let SET := SetCommand.command numToString execute in
  let registry := {| CommandRegistry.commands := {["SET" := SET]} |} in
  CommandRegistry.register SET CommandRegistry.new = inr registry
  ∧ dispatch {| engine := engine; registry := registry |}
      "SET" [Js.Str "k"] context w
    = (inl (Thrown
         {| Errors.class := Errors.ArityErrorClass;
            Errors.message :=
              "Wrong number of arguments for 'SET' (expected 0..0, got 0)";
            Errors.meta :=
              {| Errors.command := Some "SET"; Errors.dbIndex := None;
                 Errors.clientId := None; Errors.argsCount := Some 0 |};
            Errors.details := [] |}), w)
  ∧ Errors.ArityError_new "SET"
      (Some {| Errors.min := 2; Errors.max := 2; Errors.actual := 1 |})
    = {| Errors.class := Errors.ArityErrorClass;
         Errors.message :=
           "Wrong number of arguments for 'SET' (expected 2..2, got 1)";
         Errors.meta :=
           {| Errors.command := Some "SET"; Errors.dbIndex := None;
              Errors.clientId := None; Errors.argsCount := Some 1 |};
         Errors.details := [] |}.
Proof.
  intros SET registry. split; [|split].
  - unfold CommandRegistry.register. simpl.
    rewrite bool_decide_eq_false_2; [| by rewrite lookup_empty; intros [? ?]].
    by rewrite insert_empty.
  - erewrite dispatch_arity; [done | reflexivity | simpl; lia].
  - reflexivity.
Qed.

End DispatcherFacts.

(** ** The error taxonomy *)

Module ErrorFacts.
Import Errors.

(** C8, as stated, fails: [addDetails] is a public operation of an error
    and it changes the error's details. *)
Lemma addDetails_changes_details :
  ¬ (∀ m, meta (call m (CommandError_new "boom" None))
          = meta (CommandError_new "boom" None)
          ∧ details (call m (CommandError_new "boom" None))
            = details (CommandError_new "boom" None)).
Proof.
  intros Himm.
  destruct (Himm (AddDetails (inl (DStr "why")))) as [_ Hd].
  discriminate Hd.
Qed.

(** C8, amended: no operation of an error changes its class, message or
    metadata; [addDetails] appends the details it is given, as given,
    at the end of the error's details and keeps the details already
    there.  Identical invalid input always produces the same error: for
    one registry, command name and argument list, a dispatch rejected at
    lookup, at the arity check, or by a [parse] that rejects the
    arguments whatever the world, throws the same error value (same
    class, message, metadata and details) whatever the engine, the
    context and the state of the world. *)
Theorem error_meta_frozen :
  (∀ m e,
     class (call m e) = class e
     ∧ message (call m e) = message e
     ∧ meta (call m e) = meta e
     ∧ details (call m e) = details e ++ payload m)
  ∧ (∀ (W : Type) (d1 d2 : CommandDispatcher.t W) commandName rawArgs
       context1 context2 (w1 w2 : W),
       CommandDispatcher.registry d1 = CommandDispatcher.registry d2 →
       (CommandRegistry.get commandName (CommandDispatcher.registry d1) = None
        ∨ ∃ command,
            CommandRegistry.get commandName (CommandDispatcher.registry d1)
              = Some command
            ∧ (Z.of_nat (length rawArgs)
                 < Command.min (Command.arity command)
               ∨ Command.max (Command.arity command)
                 < Z.of_nat (length rawArgs)
               ∨ ∃ parse exn,
                   Command.parse command = Some parse
                   ∧ ∀ w, parse rawArgs w = (inl exn, w))) →
       ∃ exn,
         CommandDispatcher.dispatch d1 commandName rawArgs context1 w1
           = (inl exn, w1)
         ∧ CommandDispatcher.dispatch d2 commandName rawArgs context2 w2
           = (inl exn, w2)).
Proof.
  split.
  - intros [[d|ds]] e; simpl; by repeat split.
  - intros W d1 d2 commandName rawArgs context1 context2 w1 w2 Hreg
      [Hnone | (command & Hsome & Hbad)].
    + eexists. split.
      * by apply DispatcherFacts.dispatch_unknown.
      * apply DispatcherFacts.dispatch_unknown. by rewrite <- Hreg.
    + assert (CommandRegistry.get commandName (CommandDispatcher.registry d2)
              = Some command) as Hsome2 by by rewrite <- Hreg.
      destruct (decide (Z.of_nat (length rawArgs)
                          < Command.min (Command.arity command)
                        ∨ Command.max (Command.arity command)
                          < Z.of_nat (length rawArgs))) as [Harity | Hin].
      * eexists. split; by eapply DispatcherFacts.dispatch_arity.
      * destruct Hbad as [? | [? | (parse & exn & Hparse & Hthrows)]];
          [by destruct Hin; left | by destruct Hin; right |].
        exists exn.
        rewrite (DispatcherFacts.dispatch_run _ _ _ _ _ _ Hsome) by lia.
        rewrite (DispatcherFacts.dispatch_run _ _ _ _ _ _ Hsome2) by lia.
        rewrite Hparse. unfold mbind, M_bind. by rewrite !Hthrows.
Qed.

(** A detail and then an array of details added to a fresh error; the
    same unknown name, and the same arguments rejected by a [parse],
    dispatched through two dispatchers that share a registry, in two
    worlds. *)
Lemma error_meta_frozen_witness :
  let e := CommandError_new "boom" None in
  let strict : Command.t nat :=
    {| Command.name := "strict";
       Command.arity := {| Command.min := 0; Command.max := 9 |};
       Command.isWrite := false;
       Command.execute := λ _ _ args w, (inr args, S w);
       Command.parse :=
         Some (λ rawArgs w,
                 (inl (Thrown (addDetails (inr (map (λ _, DStr "bad") rawArgs))
                                 (InvalidArgumentError_new "no" None))),
                  w)) |} in
  let registry := {| CommandRegistry.commands := {["STRICT" := strict]} |} in
  let d1 := {| CommandDispatcher.engine :=
                 {| Engine.databases := []; Engine.dbCount := 0 |};
               CommandDispatcher.registry := registry |} in
  let d2 := {| CommandDispatcher.engine :=
                 {| Engine.databases := [1%positive]; Engine.dbCount := 1 |};
               CommandDispatcher.registry := registry |} in
  details (call (AddDetails (inr [DStr "how"; DStr "where"]))
             (call (AddDetails (inl (DStr "why"))) e))
  = [DStr "why"; DStr "how"; DStr "where"]
  ∧ (∃ exn,
       CommandDispatcher.dispatch d1 "NOPE" [] (CommandContext.new None)
         1%nat = (inl exn, 1%nat)
       ∧ CommandDispatcher.dispatch d2 "NOPE" []
           (CommandContext.withDatabase 3 (CommandContext.new None)) 2%nat
         = (inl exn, 2%nat))
  ∧ (∃ exn,
       CommandDispatcher.dispatch d1 "strict" [Js.Null]
         (CommandContext.new None) 1%nat = (inl exn, 1%nat)
       ∧ CommandDispatcher.dispatch d2 "strict" [Js.Null]
           (CommandContext.withDatabase 3 (CommandContext.new None)) 2%nat
         = (inl exn, 2%nat)).
Proof.
  intros e strict registry d1 d2.
  destruct error_meta_frozen as [Hfrozen Hdet]. split; [|split].
  - destruct (Hfrozen (AddDetails (inr [DStr "how"; DStr "where"]))
                (call (AddDetails (inl (DStr "why"))) e))
      as (_ & _ & _ & ->).
    destruct (Hfrozen (AddDetails (inl (DStr "why"))) e) as (_ & _ & _ & ->).
    reflexivity.
  - apply (Hdet nat d1 d2); [reflexivity | left; reflexivity].
  - apply (Hdet nat d1 d2); [reflexivity |].
    right. exists strict. split; [reflexivity |].
    right. right. eexists _, _. split; [reflexivity |].
    intros w. reflexivity.
Defined.

End ErrorFacts.

(** ** SET *)

Module SetCommandFacts.
Import SetCommand.

Section facts.
Variable numToString : Js.number → string.

(** With [errors] unbound, [rawArgs.map] maps every argument, or stops
    at the [ReferenceError] of the first push or at the [TypeError] of
    an argument that has no string. *)
Lemma map_args_unbound rawArgs :
  (∃ ss, map_args numToString rawArgs None = (inr ss, None))
  ∨ map_args numToString rawArgs None = (inl (ReferenceError "errors"), None)
  ∨ ∃ msg, map_args numToString rawArgs None = (inl (TypeError msg), None).
Proof.
  induction rawArgs as [|arg rest IH]; [left; by eexists |].
  simpl. unfold parse_arg.
  destruct (Js.String_ numToString arg) as [s|];
    [|right; right; by eexists].
  case_bool_decide; [by right; left |].
  destruct IH as [[ss ->] | [-> | [msg ->]]];
    [left; by eexists | by right; left | right; right; by eexists].
Qed.

Lemma map_args_unbound_strings rawArgs :
  Forall (λ arg, is_Some (Js.String_ numToString arg)) rawArgs →
  (∃ ss, map_args numToString rawArgs None = (inr ss, None))
  ∨ map_args numToString rawArgs None = (inl (ReferenceError "errors"), None).
Proof.
  induction 1 as [|arg rest [s Hs] _ IH]; [left; by eexists |].
  simpl. unfold parse_arg. rewrite Hs.
  case_bool_decide; [by right |].
  destruct IH as [[ss ->] | ->]; [left; by eexists | by right].
Qed.

(** As the module has it, [parse] never returns: every call ends in the
    [ReferenceError] of reading [errors], unless the [TypeError] of an
    argument without a string comes first. *)
Lemma parse_throws rawArgs :
  parse numToString rawArgs = inl (ReferenceError "errors")
  ∨ ∃ msg, parse numToString rawArgs = inl (TypeError msg).
Proof.
  unfold parse, parse_in.
  destruct (map_args_unbound rawArgs) as [[ss ->] | [-> | [msg ->]]];
    [by left | by left | right; by eexists].
Qed.

Lemma parse_unbound rawArgs :
  Forall (λ arg, is_Some (Js.String_ numToString arg)) rawArgs →
  parse numToString rawArgs = inl (ReferenceError "errors").
Proof.
  intros Hstr. unfold parse, parse_in.
  by destruct (map_args_unbound_strings rawArgs Hstr) as [[ss ->] | ->].
Qed.

(** Where [errors] is bound to an empty array, two arguments whose
    strings are not empty parse to the pair of those strings. *)
Lemma parse_in_accepts arg0 arg1 s0 s1 :
  Js.String_ numToString arg0 = Some s0 → s0 ≠ "" →
  Js.String_ numToString arg1 = Some s1 → s1 ≠ "" →
  parse_in numToString (Some []) [arg0; arg1]
  = inr (Js.Obj [("key", Js.Str s0); ("value", Js.Str s1)]).
Proof.
  intros H0 Hn0 H1 Hn1. unfold parse_in. simpl. unfold parse_arg.
  rewrite H0, H1.
  rewrite !bool_decide_eq_false_2; [done | simpl; lia | done | done].
Qed.

(** C4: evaluated on the arguments ["k"] and the empty string.  [parse]
    takes the empty string for an invalid argument and goes to push a
    failure onto [errors]: as the module has it, that read throws a
    [ReferenceError]; wherever [errors] is bound to an array, the call
    throws the invalid-argument error whose last detail names the empty
    string.  In no scope does it return the pair of ["k"] and the empty
    string. *)
Theorem parse_rejects_empty_string :
  parse numToString [Js.Str "k"; Js.Str ""] = inl (ReferenceError "errors")
  ∧ (∀ acc,
       parse_in numToString (Some acc) [Js.Str "k"; Js.Str ""]
       = inl (Thrown
           {| Errors.class := Errors.InvalidArgumentErrorClass;
              Errors.message := "Invalid argument(s) for SET command";
              Errors.meta := Errors.noMeta;
              Errors.details :=
                acc ++
                [Errors.DObj
                   [("detailMsg", Js.Str "Argument '' is not a valid string");
                    ("arg", Js.Str "")]] |}))
  ∧ (∀ errors,
       parse_in numToString errors [Js.Str "k"; Js.Str ""]
       ≠ inr (Js.Obj [("key", Js.Str "k"); ("value", Js.Str "")])).
Proof.
  assert (∀ acc,
       parse_in numToString (Some acc) [Js.Str "k"; Js.Str ""]
       = inl (Thrown
           {| Errors.class := Errors.InvalidArgumentErrorClass;
              Errors.message := "Invalid argument(s) for SET command";
              Errors.meta := Errors.noMeta;
              Errors.details :=
                acc ++
                [Errors.DObj
                   [("detailMsg", Js.Str "Argument '' is not a valid string");
                    ("arg", Js.Str "")]] |})) as Hbound.
  { intros acc. unfold parse_in. simpl.
    rewrite bool_decide_eq_true_2; [done |].
    rewrite length_app. simpl. lia. }
  split; [apply parse_unbound; by repeat constructor |]. split; [done |].
  intros [acc|].
  - by rewrite Hbound.
  - done.
Qed.

End facts.

End SetCommandFacts.

(** ** EXPIRE *)

Module ExpireCommandFacts.
Import ExpireCommand.


Lemma positive_integer_Some n :
  0 < n → positive_integer (Js.Finite (n # 1)) = Some n.
Proof.
  intros Hn. unfold positive_integer. simpl.
  rewrite Z.mod_1_r, Z.div_1_r. simpl.
  by rewrite (proj2 (Z.ltb_lt 0 n) Hn).
Qed.









End ExpireCommandFacts.

(** * Further properties *)

(** ** The database: how the methods compose *)

Module DatabaseLaws.
Import Database.

Lemma db_eq (db1 db2 : t) :
  keyspace db1 = keyspace db2 → expirations db1 = expirations db2 →
  db1 = db2.
Proof. destruct db1, db2; simpl. by intros -> ->. Qed.

Lemma isExpired_set now key key' entry db :
  isExpired now key' (set key entry db) = isExpired now key' db.
Proof. done. Qed.

Lemma delete_set key entry db : delete key (set key entry db) = delete key db.
Proof. apply db_eq; simpl; [apply delete_insert_eq | done]. Qed.

(** X1: a key that is not expired reads back the entry just written,
    and the read changes nothing. *)
Theorem get_after_set (now : Z) (key : string) (entry : loc) (db : t) :
  isExpired now key db = false →
  get now key (set key entry db) = (Some entry, set key entry db).
Proof.
  intros Hlive. rewrite DatabaseFacts.get_live by done.
  simpl. by rewrite lookup_insert_eq.
Qed.

Lemma get_after_set_witness :
  get 3 "k" (set "k" 2%positive
               {| keyspace := {["k" := 1%positive]};
                  expirations := {["k" := 5]} |})
  = (Some 2%positive,
     set "k" 2%positive
       {| keyspace := {["k" := 1%positive]}; expirations := {["k" := 5]} |}).
Proof. apply get_after_set. reflexivity. Defined.

(** X2: writing a key whose expiry has passed but which no read has
    evicted yet does not revive it: the old expiry still applies, so the
    next read evicts the key, new entry included, and returns absent. *)
Theorem set_on_expired_key_is_lost (now : Z) (key : string) (entry : loc)
    (db : t) :
  isExpired now key db = true →
  get now key (set key entry db) = (None, delete key db).
Proof.
  intros Hexp. rewrite DatabaseFacts.get_expired by done.
  by rewrite delete_set.
Qed.

Lemma set_on_expired_key_is_lost_witness :
  get 9 "k" (set "k" 2%positive
               {| keyspace := {["k" := 1%positive]};
                  expirations := {["k" := 5]} |})
  = (None, delete "k" {| keyspace := {["k" := 1%positive]};
                         expirations := {["k" := 5]} |}).
Proof. apply set_on_expired_key_is_lost. reflexivity. Defined.

(** X3: a deleted key reads as absent at any time without further
    change, deleting it again changes nothing, and the other keys keep
    their entries and expiries. *)
Theorem delete_then_get (now : Z) (key : string) (db : t) :
  get now key (delete key db) = (None, delete key db)
  ∧ delete key (delete key db) = delete key db
  ∧ ∀ key', key' ≠ key →
      keyspace (delete key db) !! key' = keyspace db !! key'
      ∧ expirations (delete key db) !! key' = expirations db !! key'.
Proof.
  split; [|split].
  - apply DatabaseFacts.get_gone.
    + rewrite DatabaseFacts.delete_keyspace. by case_decide.
    + rewrite DatabaseFacts.delete_expirations. by case_decide.
  - apply db_eq; simpl; apply delete_delete_eq.
  - intros key' Hne.
    rewrite DatabaseFacts.delete_keyspace, DatabaseFacts.delete_expirations.
    by case_decide.
Qed.

(** X4: [delete] drops the expiry with the entry, so a key written
    again after a delete has no expiry: it reads back at every time. *)
Theorem set_after_delete_has_no_ttl (now : Z) (key : string) (entry : loc)
    (db : t) :
  get now key (set key entry (delete key db))
  = (Some entry, set key entry (delete key db))
  ∧ expirations (set key entry (delete key db)) !! key = None.
Proof.
  assert (expirations (set key entry (delete key db)) !! key = None) as Hx.
  { simpl. apply lookup_delete_eq. }
  split; [|done].
  rewrite DatabaseFacts.get_live.
  - simpl. by rewrite lookup_insert_eq.
  - apply DatabaseFacts.isExpired_false. by left.
Qed.

Lemma delete_setExpiry key ts db :
  delete key (setExpiry key ts db) = delete key db.
Proof.
  unfold setExpiry. case_bool_decide; [done |].
  apply db_eq; simpl; [done | apply delete_insert_eq].
Qed.

Lemma setExpiry_present key ts db :
  keyspace db !! key ≠ None →
  setExpiry key ts db
  = {| keyspace := keyspace db;
       expirations := <[key := ts]> (expirations db) |}.
Proof. intros Hk. unfold setExpiry. by rewrite bool_decide_eq_false_2. Qed.

(** X5: an expiry set on a stored key is a deadline.  Strictly before
    the instant the key reads as before and the read changes nothing; at
    the instant and from then on the read evicts the key from both maps
    and returns absent. *)
Theorem setExpiry_deadline (now ts : Z) (key : string) (entry : loc)
    (db : t) :
  keyspace db !! key = Some entry →
  (now < ts →
     get now key (setExpiry key ts db) = (Some entry, setExpiry key ts db))
  ∧ (ts ≤ now →
       get now key (setExpiry key ts db) = (None, delete key db)).
Proof.
  intros Hk.
  assert (expirations (setExpiry key ts db) !! key = Some ts) as Hx.
  { rewrite setExpiry_present by by rewrite Hk. simpl. apply lookup_insert_eq. }
  split; intros Hnow.
  - rewrite DatabaseFacts.get_live.
    + f_equal. rewrite setExpiry_present by by rewrite Hk. done.
    + apply DatabaseFacts.isExpired_false. right. by exists ts.
  - rewrite DatabaseFacts.get_expired.
    + by rewrite delete_setExpiry.
    + apply DatabaseFacts.isExpired_true. by exists ts.
Qed.

Lemma setExpiry_deadline_witness :
  let db := {| keyspace := {["k" := 1%positive]}; expirations := ∅ |} in
  get 4 "k" (setExpiry "k" 5 db) = (Some 1%positive, setExpiry "k" 5 db)
  ∧ get 5 "k" (setExpiry "k" 5 db) = (None, delete "k" db).
Proof.
  intros db.
  destruct (setExpiry_deadline 4 5 "k" 1%positive db eq_refl) as [Hbefore _].
  destruct (setExpiry_deadline 5 5 "k" 1%positive db eq_refl) as [_ Hat].
  split; [apply Hbefore; lia | apply Hat; lia].
Defined.

(** X6: the last [setExpiry] on a key wins, and [setExpiry] never
    changes the keyspace. *)
Theorem setExpiry_last_wins (key : string) (t1 t2 : Z) (db : t) :
  setExpiry key t2 (setExpiry key t1 db) = setExpiry key t2 db
  ∧ keyspace (setExpiry key t1 db) = keyspace db.
Proof.
  destruct (decide (keyspace db !! key = None)) as [Hk | Hk].
  - assert (setExpiry key t1 db = db) as ->.
    { unfold setExpiry. by rewrite bool_decide_eq_true_2. }
    done.
  - rewrite (setExpiry_present key t1 db Hk).
    rewrite setExpiry_present by done. simpl. split; [|done].
    rewrite setExpiry_present by done.
    apply db_eq; simpl; [done | apply insert_insert_eq].
Qed.

(** X7: reading a key twice at one instant gives the same answer twice,
    and the second read changes nothing. *)
Theorem get_idempotent (now : Z) (key : string) (db : t) :
  get now key (snd (get now key db)) = get now key db.
Proof.
  destruct (isExpired now key db) eqn:Hexp.
  - rewrite (DatabaseFacts.get_expired _ _ _ Hexp). cbn [snd].
    apply DatabaseFacts.get_gone.
    + rewrite DatabaseFacts.delete_keyspace. by case_decide.
    + rewrite DatabaseFacts.delete_expirations. by case_decide.
  - rewrite (DatabaseFacts.get_live _ _ _ Hexp). cbn [snd].
    by apply DatabaseFacts.get_live.
Qed.

(** X8: expiry is lazy.  Calls that name other keys, reads included,
    never touch a key: its entry and its expiry stay as they are, passed
    or not, until a call names it. *)
Theorem untouched_key_is_kept (ops : list Op) (key : string) (db : t) :
  Forall (λ op, op_key op ≠ key) ops →
  keyspace (run ops db) !! key = keyspace db !! key
  ∧ expirations (run ops db) !! key = expirations db !! key.
Proof.
  intros Hops. revert db.
  induction Hops as [|op ops Hop _ IH]; intros db; [done |].
  simpl. destruct (IH (step op db)) as [-> ->]. clear IH.
  destruct op as [now k | k e | k | k ts | now k]; simpl in *.
  - unfold get. destruct (isExpired now k db); simpl; [|done].
    rewrite !lookup_delete_ne; done.
  - by rewrite lookup_insert_ne.
  - rewrite !lookup_delete_ne; done.
  - unfold setExpiry. case_bool_decide; simpl; [done |].
    by rewrite lookup_insert_ne.
  - done.
Qed.

Lemma untouched_key_is_kept_witness :
  let db := {| keyspace := {["old" := 1%positive]};
               expirations := {["old" := 5]} |} in
  keyspace (run [OpSet "a" 2%positive; OpGet 100 "a"; OpDelete "b"] db)
    !! "old" = Some 1%positive.
Proof.
  intros db.
  apply (proj1 (untouched_key_is_kept
                  [OpSet "a" 2%positive; OpGet 100 "a"; OpDelete "b"]
                  "old" db (ltac:(repeat constructor; discriminate)))).
Defined.

(** X9: an expiry survives an overwrite.  After [setExpiry] and then
    [set] on a stored key, the key reads as the new entry before the
    instant and as absent from the instant on. *)
Theorem ttl_survives_overwrite (now ts : Z) (key : string)
    (old entry : loc) (db : t) :
  keyspace db !! key = Some old →
  (now < ts →
     fst (get now key (set key entry (setExpiry key ts db))) = Some entry)
  ∧ (ts ≤ now →
       get now key (set key entry (setExpiry key ts db))
       = (None, delete key db)).
Proof.
  intros Hk.
  assert (expirations (setExpiry key ts db) !! key = Some ts) as Hx.
  { rewrite setExpiry_present by by rewrite Hk. simpl. apply lookup_insert_eq. }
  split; intros Hnow.
  - rewrite DatabaseFacts.get_live.
    + simpl. by rewrite lookup_insert_eq.
    + rewrite isExpired_set.
      apply DatabaseFacts.isExpired_false. right. by exists ts.
  - rewrite DatabaseFacts.get_expired.
    + by rewrite delete_set, delete_setExpiry.
    + rewrite isExpired_set.
      apply DatabaseFacts.isExpired_true. by exists ts.
Qed.

Lemma ttl_survives_overwrite_witness :
  let db := {| keyspace := {["k" := 1%positive]}; expirations := ∅ |} in
  fst (get 4 "k" (set "k" 2%positive (setExpiry "k" 5 db)))
    = Some 2%positive
  ∧ get 7 "k" (set "k" 2%positive (setExpiry "k" 5 db))
    = (None, delete "k" db).
Proof.
  intros db.
  destruct (ttl_survives_overwrite 4 5 "k" 1%positive 2%positive db eq_refl)
    as [Hbefore _].
  destruct (ttl_survives_overwrite 7 5 "k" 1%positive 2%positive db eq_refl)
    as [_ Hafter].
  split; [apply Hbefore; lia | apply Hafter; lia].
Defined.

Lemma delete_then_get_witness :
  let db := {| keyspace := {["k" := 1%positive; "j" := 2%positive]};
               expirations := {["k" := 5]} |} in
  keyspace (delete "k" db) !! "j" = Some 2%positive.
Proof.
  intros db.
  destruct (delete_then_get 0 "k" db) as (_ & _ & Hframe).
  destruct (Hframe "j") as [Hj _]; [discriminate |].
  etrans; [exact Hj | reflexivity].
Defined.

(** X10: in every state reached from a fresh database, the expiries are
    no more numerous than the entries. *)
Theorem expirations_no_more_than_keys (ops : list Op) :
  (size (expirations (run ops new)) ≤ size (keyspace (run ops new)))%nat.
Proof.
  pose proof (DatabaseFacts.invariant_run ops new DatabaseFacts.invariant_new)
    as Hinv.
  rewrite <- !size_dom. apply subseteq_size.
  intros key Hkey%elem_of_dom. by apply elem_of_dom, Hinv.
Qed.

End DatabaseLaws.

(** ** Value entries: chains of clones *)

Module ValueEntryLaws.
Import ValueEntry.

(** One clone: where the new entry is and what it holds; the store it
    extends. *)
Lemma clone_step now this value h e :
  h !! this = Some e →
  ∃ l h',
    cloneWithValue now this value h = Some (l, h')
    ∧ h !! l = None
    ∧ h' = <[l := {| type := type e; value := value;
                     createdAt := createdAt e; updatedAt := now |}]> h.
Proof.
  intros Hthis. unfold cloneWithValue, new, alloc. rewrite Hthis.
  eexists _, _. split; [done |]. split; [|done].
  apply not_elem_of_dom, is_fresh.
Qed.

(** X11: however often an entry is cloned, the last clone has the type
    and the [createdAt] of the first entry; every entry that was in the
    store is still there unchanged, and the store has grown by one entry
    per clone. *)
Theorem clone_chain_keeps_origin (steps : list (Z * Js.unknown))
    (this : loc) (h : gmap loc t) (e : t) :
  h !! this = Some e →
  ∃ l h' e',
    clone_chain steps this h = Some (l, h')
    ∧ h' !! l = Some e'
    ∧ type e' = type e
    ∧ createdAt e' = createdAt e
    ∧ h ⊆ h'
    ∧ size h' = (size h + length steps)%nat.
Proof.
  revert this h e.
  induction steps as [|[now value] steps IH]; intros this h e Hthis.
  - exists this, h, e. simpl.
    split; [done |]. split; [done |]. split; [done |]. split; [done |].
    split; [done | lia].
  - destruct (clone_step now this value h e Hthis) as (l & h1 & Hc & Hl & ->).
    simpl. rewrite Hc.
    edestruct (IH l)
      as (l' & h' & e' & Hchain & Hl' & Hty & Hcr & Hsub & Hsize);
      [apply lookup_insert_eq |].
    simpl in Hty, Hcr. exists l', h', e'.
    split; [done |]. split; [done |]. split; [done |]. split; [done |].
    split.
    + etrans; [|exact Hsub]. by apply insert_subseteq.
    + rewrite Hsize, map_size_insert_None by done. lia.
Qed.

Lemma clone_chain_keeps_origin_witness :
  let e := {| type := TString; value := Js.Str "a";
              createdAt := 10; updatedAt := 10 |} in
  ∃ l h' e',
    clone_chain [(20, Js.Str "b"); (30, Js.Str "c")] 1%positive
      {[1%positive := e]} = Some (l, h')
    ∧ h' !! l = Some e'
    ∧ createdAt e' = 10
    ∧ size h' = 3%nat.
Proof.
  intros e.
  destruct (clone_chain_keeps_origin [(20, Js.Str "b"); (30, Js.Str "c")]
              1%positive {[1%positive := e]} e)
    as (l & h' & e' & ? & ? & ? & ? & ? & ?); [reflexivity |].
  by exists l, h', e'.
Defined.

(** X12: the last clone of a chain holds the value of the last step, is
    stamped with the clock reading of the last step, and sits at a
    reference that was not in use before the chain started. *)
Theorem clone_chain_last (steps : list (Z * Js.unknown)) (now : Z)
    (value : Js.unknown) (this : loc) (h : gmap loc t) (e : t) :
  h !! this = Some e →
  ∃ l h' e',
    clone_chain (steps ++ [(now, value)]) this h = Some (l, h')
    ∧ h' !! l = Some e'
    ∧ ValueEntry.value e' = value
    ∧ updatedAt e' = now
    ∧ h !! l = None.
Proof.
  revert this h e.
  induction steps as [|[now0 value0] steps IH]; intros this h e Hthis.
  - destruct (clone_step now this value h e Hthis) as (l & h1 & Hc & Hl & ->).
    simpl. rewrite Hc. eexists l, _, _.
    split; [done |]. split; [apply lookup_insert_eq |]. by repeat split.
  - destruct (clone_step now0 this value0 h e Hthis)
      as (l & h1 & Hc & Hl & ->).
    simpl. rewrite Hc.
    edestruct (IH l) as (l' & h' & e' & Hchain & Hl' & Hv & Hu & Hfresh);
      [apply lookup_insert_eq |].
    exists l', h', e'. repeat split; try done.
    by apply lookup_insert_None in Hfresh as [? _].
Qed.

Lemma clone_chain_last_witness :
  let e := {| type := TString; value := Js.Str "a";
              createdAt := 10; updatedAt := 10 |} in
  ∃ l h' e',
    clone_chain [(20, Js.Str "b"); (30, Js.Str "c")] 1%positive
      {[1%positive := e]} = Some (l, h')
    ∧ h' !! l = Some e'
    ∧ ValueEntry.value e' = Js.Str "c"
    ∧ updatedAt e' = 30.
Proof.
  intros e.
  destruct (clone_chain_last [(20, Js.Str "b")] 30 (Js.Str "c")
              1%positive {[1%positive := e]} e)
    as (l & h' & e' & ? & ? & ? & ? & ?); [reflexivity |].
  by exists l, h', e'.
Defined.

End ValueEntryLaws.

(** ** The engine: construction and lookup *)

Module EngineLaws.
Import Engine.

Lemma from_size n h ls h' :
  from n h = (ls, h') → size h' = (size h + n)%nat.
Proof.
  revert h ls h'. induction n as [|n IH]; intros h ls h' Hfrom.
  - injection Hfrom as _ <-. lia.
  - simpl in Hfrom.
    set (a := fresh (dom h)) in *.
    destruct (from n (<[a:=Database.new]> h)) as [ls' h2] eqn:Hrec.
    injection Hfrom as _ <-.
    rewrite (IH _ _ _ Hrec), map_size_insert_None; [lia |].
    apply not_elem_of_dom, is_fresh.
Qed.

Lemma from_subseteq n h ls h' : from n h = (ls, h') → h ⊆ h'.
Proof.
  intros (_ & _ & Hnew & Hold)%EngineFacts.from_spec.
  apply map_subseteq_spec. intros l d Hl.
  destruct (decide (l ∈ ls)) as [Hin | Hout].
  - destruct (Hnew l Hin) as [Hnone _]. congruence.
  - by rewrite Hold.
Qed.

(** X13: [new Engine(n)] for an integer [n].  For [n] of 2^32 or more
    the constructor throws a [RangeError] and nothing is constructed.
    Below that it returns an engine with count [n] and as many databases
    as [n] when [n] is positive, none otherwise.  Each is new to the
    store and empty, so every key of every database reads as absent;
    the store keeps all it held, and grows by exactly the new
    databases. *)
Theorem new_engine_is_empty (n : Z) (h0 : gmap loc Database.t) :
  (2 ^ 32 ≤ n → ∃ msg, constructor (Some n) h0 = inl (RangeError msg))
  ∧ (n < 2 ^ 32 →
       ∃ e h1,
         constructor (Some n) h0 = inr (e, h1)
         ∧ dbCount e = n
         ∧ length (databases e) = Z.to_nat n
         ∧ h0 ⊆ h1
         ∧ size h1 = (size h0 + Z.to_nat n)%nat
         ∧ ∀ l, l ∈ databases e →
             h0 !! l = None
             ∧ ∀ now key, get_result now key l h1 = Some None).
Proof.
  unfold constructor. simpl. split; intros Hn.
  - rewrite bool_decide_eq_true_2 by done. by eexists.
  - rewrite bool_decide_eq_false_2 by lia.
    unfold new. simpl.
    destruct (from (Z.to_nat n) h0) as [ls h'] eqn:Hfrom.
    eexists _, _. split; [done |]. simpl.
    destruct (EngineFacts.from_spec _ _ _ _ Hfrom) as (Hlen & _ & Hfresh & _).
    split; [done |]. split; [done |].
    split; [by eapply from_subseteq |].
    split; [by eapply from_size |].
    intros l Hl. destruct (Hfresh l Hl) as [Hnone Hsome].
    split; [done |]. intros now key.
    unfold get_result. by rewrite Hsome.
Qed.

Lemma new_engine_is_empty_witness :
  (∃ msg, constructor (Some (2 ^ 32)) ∅ = inl (RangeError msg))
  ∧ ∃ e h1,
      constructor (Some 2) ∅ = inr (e, h1)
      ∧ length (databases e) = 2%nat ∧ size h1 = 2%nat.
Proof.
  split.
  - apply (proj1 (new_engine_is_empty (2 ^ 32) ∅)). lia.
  - destruct (proj2 (new_engine_is_empty 2 ∅))
      as (e & h1 & Hc & _ & Hlen & _ & Hsize & _); [lia |].
    by exists e, h1.
Defined.

(** X14: [getDatabase] on an engine built by the constructor, for every
    number given as index.  It throws the out-of-range error for every
    number below 0 or at or above the count, the two infinities
    included (so for every such number when the count is 0 or
    negative).  For an integer inside the range it returns a database of
    the store, the one [getDatabase] returns on that integer.  For
    [NaN], and for a number inside the range that is not an integer, it
    returns [undefined]. *)
Theorem getDatabase_range (dbCount : option Z) (h0 : gmap loc Database.t)
    (e : t) (h1 : gmap loc Database.t) :
  new dbCount h0 = (e, h1) →
  (∀ q, Qnum q < 0 ∨ Engine.dbCount e * Z.pos (Qden q) ≤ Qnum q →
        getDatabase_at (Js.Finite q) e
        = inl (Error "Database index out of range"))
  ∧ getDatabase_at Js.PosInfinity e
    = inl (Error "Database index out of range")
  ∧ getDatabase_at Js.NegInfinity e
    = inl (Error "Database index out of range")
  ∧ getDatabase_at Js.NaN e = inr None
  ∧ (∀ q, 0 ≤ Qnum q < Engine.dbCount e * Z.pos (Qden q) →
          Qnum q mod Z.pos (Qden q) ≠ 0 →
          getDatabase_at (Js.Finite q) e = inr None)
  ∧ (∀ index, 0 ≤ index < Engine.dbCount e →
       ∃ l, getDatabase_at (Js.Finite (index # 1)) e = inr (Some l)
            ∧ getDatabase index e = inr (Some l)
            ∧ l ∈ databases e
            ∧ is_Some (h1 !! l)).
Proof.
  unfold new. intros Hnew.
  destruct (from _ h0) as [ls h'] eqn:Hfrom.
  injection Hnew as <- <-.
  destruct (EngineFacts.from_spec _ _ _ _ Hfrom) as (Hlen & _ & Hfresh & _).
  split; [|split; [|split; [|split; [|split]]]]; try done.
  - intros q Hout. unfold getDatabase_at.
    destruct (Z.ltb_spec (Qnum q) 0); [done |].
    destruct (Z.leb_spec
                (Engine.dbCount {| databases := ls;
                                   dbCount := default DEFAULT_DB_COUNT dbCount |}
                 * Z.pos (Qden q)) (Qnum q)); [done | lia].
  - intros q Hin Hfrac. unfold getDatabase_at.
    destruct (Z.ltb_spec (Qnum q) 0); [lia |].
    destruct (Z.leb_spec
                (Engine.dbCount {| databases := ls;
                                   dbCount := default DEFAULT_DB_COUNT dbCount |}
                 * Z.pos (Qden q)) (Qnum q)); [lia |].
    simpl. by rewrite (proj2 (Z.eqb_neq _ _) Hfrac).
  - intros index Hrange. simpl in Hrange.
    destruct (lookup_lt_is_Some_2 ls (Z.to_nat index)) as [l Hl]; [lia |].
    assert (l ∈ ls) as Hin by by eapply list_elem_of_lookup_2.
    exists l. split; [|split; [|split]].
    + unfold getDatabase_at. simpl.
      destruct (Z.ltb_spec index 0); [lia |].
      destruct (Z.leb_spec (default DEFAULT_DB_COUNT dbCount * 1) index);
        [lia |].
      simpl. by rewrite Z.mod_1_r, Z.div_1_r, Hl.
    + rewrite EngineFacts.getDatabase_in_range by done. simpl. by rewrite Hl.
    + done.
    + destruct (Hfresh l Hin) as [_ ->]. by eexists.
Qed.

Lemma getDatabase_range_witness :
  let '(e, h1) := new (Some 2) ∅ in
  getDatabase_at (Js.Finite (2 # 1)) e
    = inl (Error "Database index out of range")
  ∧ getDatabase_at (Js.Finite (-1 # 2)) e
    = inl (Error "Database index out of range")
  ∧ getDatabase_at (Js.Finite (1 # 2)) e = inr None
  ∧ ∃ l, getDatabase_at (Js.Finite (1 # 1)) e = inr (Some l)
         ∧ is_Some (h1 !! l).
Proof.
  destruct (new (Some 2) ∅) as [e h1] eqn:Hnew.
  assert (dbCount e = 2) as Hcount by by injection Hnew as <- _.
  destruct (getDatabase_range (Some 2) ∅ e h1 Hnew)
    as (Hout & _ & _ & _ & Hfrac & Hin).
  split; [apply Hout; right; rewrite Hcount; simpl; lia |].
  split; [apply Hout; left; simpl; lia |].
  split; [apply Hfrac; [rewrite Hcount; simpl; lia | by simpl] |].
  destruct (Hin 1) as (l & ? & _ & _ & ?); [lia |]. by exists l.
Defined.

(** X15: two engines built one after the other over one store share no
    database: building the second leaves the databases of the first as
    they were, and a call through a database of one never changes a
    database of the other. *)
Theorem engines_share_no_database (c1 c2 : option Z)
    (h0 : gmap loc Database.t) (e1 : t) (h1 : gmap loc Database.t)
    (e2 : t) (h2 : gmap loc Database.t) :
  new c1 h0 = (e1, h1) →
  new c2 h1 = (e2, h2) →
  ∀ l1 l2, l1 ∈ databases e1 → l2 ∈ databases e2 →
    l1 ≠ l2
    ∧ h2 !! l1 = h1 !! l1
    ∧ ∀ op h, call l1 op h !! l2 = h !! l2 ∧ call l2 op h !! l1 = h !! l1.
Proof.
  unfold new. intros Hnew1 Hnew2.
  destruct (from _ h0) as [ls1 h1'] eqn:Hfrom1.
  destruct (from _ h1) as [ls2 h2'] eqn:Hfrom2.
  injection Hnew1 as <- <-. injection Hnew2 as <- <-. simpl.
  destruct (EngineFacts.from_spec _ _ _ _ Hfrom1) as (_ & _ & Hfresh1 & _).
  destruct (EngineFacts.from_spec _ _ _ _ Hfrom2)
    as (_ & _ & Hfresh2 & Hold2).
  intros l1 l2 Hl1 Hl2.
  destruct (Hfresh1 l1 Hl1) as [_ Hsome1].
  destruct (Hfresh2 l2 Hl2) as [Hnone2 _].
  assert (l1 ≠ l2) as Hne by congruence.
  split; [done |]. split.
  - apply Hold2. intros Hin. destruct (Hfresh2 l1 Hin) as [? _]. congruence.
  - intros op h. split; by apply EngineFacts.call_frame.
Qed.

Lemma engines_share_no_database_witness :
  let '(e1, h1) := new (Some 1) ∅ in
  let '(e2, h2) := new (Some 1) h1 in
  ∀ l1 l2, l1 ∈ databases e1 → l2 ∈ databases e2 → l1 ≠ l2.
Proof.
  destruct (new (Some 1) ∅) as [e1 h1] eqn:Hnew1.
  destruct (new (Some 1) h1) as [e2 h2] eqn:Hnew2.
  intros l1 l2 Hl1 Hl2.
  apply (engines_share_no_database _ _ _ _ _ _ _ Hnew1 Hnew2 l1 l2 Hl1 Hl2).
Defined.

End EngineLaws.

(** ** Errors and contexts *)

Module ErrorLaws.
Import Errors.

Lemma error_eq (e1 e2 : CommandError) :
  class e1 = class e2 → message e1 = message e2 → meta e1 = meta e2 →
  details e1 = details e2 → e1 = e2.
Proof. destruct e1, e2; simpl. by intros -> -> -> ->. Qed.

(** X16: details accumulate in call order.  After any sequence of
    [addDetails] calls the details are the ones the error had, followed
    by what each call handed over, in order; class, message and metadata
    are those the error was built with. *)
Theorem details_accumulate (ms : list Method) (e : CommandError) :
  details (calls ms e) = details e ++ concat (map payload ms)
  ∧ class (calls ms e) = class e
  ∧ message (calls ms e) = message e
  ∧ meta (calls ms e) = meta e.
Proof.
  revert e. induction ms as [|[detail] ms IH]; intros e.
  - simpl. by rewrite app_nil_r.
  - simpl. destruct (IH (addDetails detail e)) as (-> & -> & -> & ->).
    simpl. split; [|done]. rewrite <- app_assoc. by destruct detail.
Qed.

(** X17: handing [addDetails] an array is the same as handing it the
    elements one call at a time, and an empty array changes nothing. *)
Theorem addDetails_array (ds : list Detail) (e : CommandError) :
  addDetails (inr ds) e = calls (map (λ d, AddDetails (inl d)) ds) e
  ∧ addDetails (inr []) e = e.
Proof.
  split.
  - revert e. induction ds as [|d ds IH]; intros e.
    + apply error_eq; simpl; try done. apply app_nil_r.
    + simpl. rewrite <- IH. apply error_eq; simpl; try done.
      by rewrite <- app_assoc.
  - apply error_eq; simpl; try done. apply app_nil_r.
Qed.

End ErrorLaws.

Module ContextLaws.
Import CommandContext.

(** X18: [withDatabase] selects the index it is given and keeps the
    client; selecting twice is selecting the last; selecting the index a
    context already has gives an equal context. *)
Theorem withDatabase_selects (i j : Z) (c : t) :
  dbIndex (withDatabase j c) = j
  ∧ clientId (withDatabase j c) = clientId c
  ∧ withDatabase j (withDatabase i c) = withDatabase j c
  ∧ withDatabase (dbIndex c) c = c.
Proof. by destruct c. Qed.

End ContextLaws.

(** ** The registry: registration and lookup *)

Module RegistryLaws.

Lemma upper_ascii_idemp c : Js.upper_ascii (Js.upper_ascii c) = Js.upper_ascii c.
Proof. by destruct c as [[] [] [] [] [] [] [] []]. Qed.

Lemma toUpperCase_idemp s : Js.toUpperCase (Js.toUpperCase s) = Js.toUpperCase s.
Proof.
  induction s as [|c s IH]; [done |].
  simpl. by rewrite upper_ascii_idemp, IH.
Qed.

Section laws.
Context {W : Type}.
Implicit Types (r : CommandRegistry.t W) (command : Command.t W).

(** X19: after a successful [register] of a command with an ASCII
    name, the command is found under its name in any letter case; every
    ASCII name that differs from it by more than case resolves as
    before; and the name was free before. *)
Theorem register_then_get command r r' :
  Js.is_ascii (Command.name command) = true →
  CommandRegistry.register command r = inr r' →
  (∀ name, Js.toUpperCase name = Js.toUpperCase (Command.name command) →
     CommandRegistry.get name r' = Some command)
  ∧ (∀ name,
       Js.is_ascii name = true →
       Js.toUpperCase name ≠ Js.toUpperCase (Command.name command) →
       CommandRegistry.get name r' = CommandRegistry.get name r)
  ∧ CommandRegistry.get (Command.name command) r = None.
Proof.
  intros _. unfold CommandRegistry.register, CommandRegistry.get.
  case_bool_decide as Hfree; [done |]. intros [= <-]. simpl.
  split; [|split].
  - intros name ->. apply lookup_insert_eq.
  - intros name _ Hne. by apply lookup_insert_ne.
  - by apply eq_None_not_Some.
Qed.

(** X20: for a command with an ASCII name, [register] throws exactly
    when the name is taken, whatever the letter case of the name it was
    taken under, and the error is a plain [CommandError] naming the
    upper-cased name. *)
Theorem register_rejects_duplicates command r :
  Js.is_ascii (Command.name command) = true →
  (∀ name,
     Js.toUpperCase name = Js.toUpperCase (Command.name command) →
     is_Some (CommandRegistry.get name r) →
     CommandRegistry.register command r
     = inl (Thrown (Errors.CommandError_new
                      ("Command '" +:+ Js.toUpperCase (Command.name command)
                         +:+ "' is already registered") None)))
  ∧ (CommandRegistry.get (Command.name command) r = None →
       ∃ r', CommandRegistry.register command r = inr r').
Proof.
  intros _. unfold CommandRegistry.register, CommandRegistry.get. split.
  - intros name -> Htaken. by rewrite bool_decide_eq_true_2.
  - intros Hfree. rewrite bool_decide_eq_false_2; [by eexists |].
    rewrite Hfree. by intros [? ?].
Qed.

Lemma register_all_succeeds cmds r :
  (∃ r', CommandRegistry.register_all cmds r = inr r') ↔
  NoDup (map (λ c, Js.toUpperCase (Command.name c)) cmds)
  ∧ ∀ c, c ∈ cmds →
      CommandRegistry.commands r !! Js.toUpperCase (Command.name c) = None.
Proof.
  revert r. induction cmds as [|c cmds IH]; intros r; simpl.
  - split; [|by eexists]. intros _. split; [constructor |].
    by intros ? ?%elem_of_nil.
  - unfold CommandRegistry.register at 1. case_bool_decide as Htaken.
    + split; [by intros [? ?] |]. intros [_ Hfree].
      rewrite Hfree in Htaken; [by destruct Htaken | by left].
    + rewrite IH. simpl. rewrite NoDup_cons, list_elem_of_fmap.
      apply eq_None_not_Some in Htaken. split.
      * intros [Hnd Hfree]. split; [split; [|done] |].
        -- intros (c' & Heq & Hin). specialize (Hfree c' Hin).
           apply lookup_insert_None in Hfree as [_ Hne]. congruence.
        -- intros c' [-> | Hin]%elem_of_cons; [done |].
           specialize (Hfree c' Hin).
           by apply lookup_insert_None in Hfree as [? _].
      * intros [[Hnotin Hnd] Hfree]. split; [done |].
        intros c' Hin. apply lookup_insert_None. split.
        -- apply Hfree. by right.
        -- intros Heq. apply Hnotin. by exists c'.
Qed.

(** X21: registering a list of commands with ASCII names into a fresh
    registry succeeds exactly when no two of them have the same name,
    letter case aside. *)
Theorem register_all_iff_distinct_names (cmds : list (Command.t W)) :
  Forall (λ c, Js.is_ascii (Command.name c) = true) cmds →
  (∃ r, CommandRegistry.register_all cmds CommandRegistry.new = inr r) ↔
  NoDup (map (λ c, Js.toUpperCase (Command.name c)) cmds).
Proof.
  intros _. rewrite register_all_succeeds. split; [by intros [? _] |].
  intros Hnd. split; [done |]. intros c _. apply lookup_empty.
Qed.

(** X22: lookup ignores letter case: a name and its upper-cased form
    resolve alike, and so do any two names that differ only by case. *)
Theorem get_ignores_case r (name1 name2 : string) :
  CommandRegistry.get (Js.toUpperCase name1) r = CommandRegistry.get name1 r
  ∧ (Js.toUpperCase name1 = Js.toUpperCase name2 →
       CommandRegistry.get name1 r = CommandRegistry.get name2 r).
Proof.
  unfold CommandRegistry.get. rewrite toUpperCase_idemp.
  split; [done | by intros ->].
Qed.

End laws.

Lemma register_then_get_witness :
  let echo : Command.t unit :=
    {| Command.name := "Echo";
       Command.arity := {| Command.min := 0; Command.max := 5 |};
       Command.isWrite := false;
       Command.execute := λ _ _ args w, (inr args, w);
       Command.parse := None |} in
  ∃ r, CommandRegistry.register echo CommandRegistry.new = inr r
       ∧ CommandRegistry.get "eCHo" r = Some echo
       ∧ CommandRegistry.get "ECH" r = None.
Proof.
  intros echo.
  destruct (CommandRegistry.register echo CommandRegistry.new)
    as [exn | r] eqn:Hreg; [discriminate Hreg |].
  destruct (register_then_get echo _ r eq_refl Hreg)
    as (Hfound & Hother & _).
  exists r. split; [done |]. split.
  - apply Hfound. reflexivity.
  - rewrite Hother; [reflexivity | reflexivity | discriminate].
Defined.

Lemma register_rejects_duplicates_witness :
  let cmd (n : string) : Command.t unit :=
    {| Command.name := n;
       Command.arity := {| Command.min := 0; Command.max := 5 |};
       Command.isWrite := false;
       Command.execute := λ _ _ args w, (inr args, w);
       Command.parse := None |} in
  CommandRegistry.register (cmd "set")
    {| CommandRegistry.commands := {["SET" := cmd "SET"]} |}
  = inl (Thrown (Errors.CommandError_new
                   "Command 'SET' is already registered" None)).
Proof.
  intros cmd.
  apply (proj1 (register_rejects_duplicates (cmd "set")
                  {| CommandRegistry.commands := {["SET" := cmd "SET"]} |}
                  eq_refl)
           "Set"); [reflexivity | by eexists].
Defined.

Lemma register_all_iff_distinct_names_witness :
  let cmd (n : string) : Command.t unit :=
    {| Command.name := n;
       Command.arity := {| Command.min := 0; Command.max := 5 |};
       Command.isWrite := false;
       Command.execute := λ _ _ args w, (inr args, w);
       Command.parse := None |} in
  (∃ r, CommandRegistry.register_all [cmd "set"; cmd "get"]
          CommandRegistry.new = inr r)
  ∧ ¬ (∃ r, CommandRegistry.register_all [cmd "set"; cmd "SET"]
              CommandRegistry.new = inr r).
Proof.
  intros cmd. split.
  - apply (register_all_iff_distinct_names [cmd "set"; cmd "get"]).
    + by repeat constructor.
    + simpl. apply NoDup_cons. split; [|apply NoDup_singleton].
      by intros ?%list_elem_of_singleton.
  - intros Hreg.
    apply (register_all_iff_distinct_names [cmd "set"; cmd "SET"]) in Hreg.
    + simpl in Hreg. apply NoDup_cons in Hreg as [Hnotin _].
      apply Hnotin. by left.
    + by repeat constructor.
Defined.

Lemma get_ignores_case_witness :
  CommandRegistry.get "get"
    (CommandRegistry.new : CommandRegistry.t unit)
  = CommandRegistry.get "GeT" CommandRegistry.new.
Proof.
  apply (proj2 (get_ignores_case CommandRegistry.new "get" "GeT")).
  reflexivity.
Defined.

End RegistryLaws.

(** ** The dispatcher: composition with the registry and with SET *)

Module DispatcherLaws.
Import CommandDispatcher.

Section laws.
Context {W : Type}.
Implicit Types (d : CommandDispatcher.t W) (command : Command.t W) (w : W).

(** X23: dispatch ignores the letter case of a registered command's
    name: two names that differ only by case, with arguments inside the
    arity, give the same outcome and the same world. *)
Theorem dispatch_ignores_case d (name1 name2 : string)
    (rawArgs : list Js.unknown) (context : CommandContext.t) w command :
  Js.toUpperCase name1 = Js.toUpperCase name2 →
  CommandRegistry.get name1 (registry d) = Some command →
  Command.min (Command.arity command) ≤ Z.of_nat (length rawArgs)
    ≤ Command.max (Command.arity command) →
  dispatch d name1 rawArgs context w = dispatch d name2 rawArgs context w.
Proof.
  intros Hcase Hget Harity.
  assert (CommandRegistry.get name2 (registry d) = Some command) as Hget2.
  { unfold CommandRegistry.get in *. by rewrite <- Hcase. }
  by rewrite (DispatcherFacts.dispatch_run _ _ _ _ _ _ Hget Harity),
             (DispatcherFacts.dispatch_run _ _ _ _ _ _ Hget2 Harity).
Qed.

(** X24: a property of the world that the [parse] and [execute] of
    every registered command keep is kept by every dispatch: the
    dispatcher itself changes nothing. *)
Theorem dispatch_keeps_invariant (P : W → Prop) d :
  (∀ key command,
     CommandRegistry.commands (registry d) !! key = Some command →
     (∀ engine context args w,
        P w → P (snd (Command.execute command engine context args w)))
     ∧ (∀ parse rawArgs w,
          Command.parse command = Some parse →
          P w → P (snd (parse rawArgs w)))) →
  ∀ commandName rawArgs context w,
    P w → P (snd (dispatch d commandName rawArgs context w)).
Proof.
  intros Hkeep commandName rawArgs context w Hw.
  unfold dispatch, CommandRegistry.get.
  destruct (CommandRegistry.commands (registry d) !! _)
    as [command|] eqn:Hget; [|done].
  destruct (Hkeep _ _ Hget) as [Hexec Hparse].
  case_bool_decide; [done |].
  unfold mbind, M_bind.
  destruct (Command.parse command) as [parse|].
  - pose proof (Hparse parse rawArgs w eq_refl Hw) as Hw'.
    destruct (parse rawArgs w) as [[exn | args] w']; [done |].
    by apply Hexec.
  - simpl. by apply Hexec.
Qed.

(** X25: SET cannot succeed.  Under whatever name the SET command is
    registered, a dispatch never reaches [execute] and leaves the world
    as it was.  With a count other than two it ends in the arity error.
    With two arguments it ends in an error thrown by [parse]: the
    [ReferenceError] of reading [errors] when both arguments have a
    string, and that or the [TypeError] of the conversion when one has
    none. *)
Theorem dispatch_set_always_throws (numToString : Js.number → string)
    (execute : Engine.t → CommandContext.t → Js.unknown → M W Js.unknown)
    d (commandName : string) (rawArgs : list Js.unknown)
    (context : CommandContext.t) w :
  CommandRegistry.get commandName (registry d)
    = Some (SetCommand.command numToString execute) →
  (length rawArgs = 2%nat →
     (dispatch d commandName rawArgs context w
      = (inl (ReferenceError "errors"), w)
      ∨ ∃ msg, dispatch d commandName rawArgs context w
               = (inl (TypeError msg), w))
     ∧ (Forall (λ arg, is_Some (Js.String_ numToString arg)) rawArgs →
        dispatch d commandName rawArgs context w
        = (inl (ReferenceError "errors"), w)))
  ∧ (length rawArgs ≠ 2%nat →
       dispatch d commandName rawArgs context w
       = (inl (Thrown (Errors.ArityError_new commandName None)), w)).
Proof.
  intros Hget. split; intros Hlen.
  - rewrite (DispatcherFacts.dispatch_run _ _ _ _ _ _ Hget);
      [|simpl; lia].
    simpl. unfold mbind, M_bind, pure. split.
    + destruct (SetCommandFacts.parse_throws numToString rawArgs)
        as [-> | [msg ->]]; [by left | right; by eexists].
    + intros Hstr. by rewrite SetCommandFacts.parse_unbound.
  - apply (DispatcherFacts.dispatch_arity _ _ _ _ _ _ Hget). simpl. lia.
Qed.

End laws.

Lemma dispatch_ignores_case_witness :
  let echo : Command.t unit :=
    {| Command.name := "echo";
       Command.arity := {| Command.min := 0; Command.max := 5 |};
       Command.isWrite := false;
       Command.execute := λ _ _ args w, (inr args, w);
       Command.parse := None |} in
  let d := {| engine := {| Engine.databases := []; Engine.dbCount := 0 |};
              registry :=
                {| CommandRegistry.commands := {["ECHO" := echo]} |} |} in
  dispatch d "echo" [Js.Null] (CommandContext.new None) ()
  = dispatch d "Echo" [Js.Null] (CommandContext.new None) ().
Proof.
  intros echo d.
  apply (dispatch_ignores_case d "echo" "Echo" [Js.Null]
           (CommandContext.new None) () echo);
    [reflexivity | reflexivity | simpl; lia].
Defined.

(** A counter that every command only ever raises stays at or above its
    start across a dispatch. *)
Lemma dispatch_keeps_invariant_witness :
  let bump : Command.t Z :=
    {| Command.name := "bump";
       Command.arity := {| Command.min := 0; Command.max := 0 |};
       Command.isWrite := true;
       Command.execute := λ _ _ args w, (inr args, Z.abs w + 1);
       Command.parse := None |} in
  let d := {| engine := {| Engine.databases := []; Engine.dbCount := 0 |};
              registry :=
                {| CommandRegistry.commands := {["BUMP" := bump]} |} |} in
  0 ≤ snd (dispatch d "bump" [] (CommandContext.new None) 0).
Proof.
  intros bump d.
  apply (dispatch_keeps_invariant (λ w, 0 ≤ w) d); [|lia].
  intros key command Hget. simpl in Hget.
  apply lookup_singleton_Some in Hget as [_ <-]. split.
  - intros engine context args w Hw. simpl. lia.
  - intros parse rawArgs w Hparse. discriminate Hparse.
Defined.

Lemma dispatch_set_always_throws_witness :
  let d : CommandDispatcher.t unit :=
    {| engine := {| Engine.databases := []; Engine.dbCount := 0 |};
       registry :=
         {| CommandRegistry.commands :=
              {["SET" := SetCommand.command (λ _, "0")
                           (λ _ _ _ w, (inr (Js.Str "OK"), w))]} |} |} in
  dispatch d "set" [Js.Str "k"; Js.Str "v"] (CommandContext.new None) ()
  = (inl (ReferenceError "errors"), ()).
Proof.
  intros d.
  destruct (dispatch_set_always_throws (λ _, "0")
              (λ _ _ _ w, (inr (Js.Str "OK"), w)) d "set"
              [Js.Str "k"; Js.Str "v"] (CommandContext.new None) ()
              eq_refl) as [Htwo _].
  destruct Htwo as [_ Hstrings]; [reflexivity |].
  apply Hstrings. repeat constructor; by eexists.
Defined.

End DispatcherLaws.

(** ** SET's parse where [errors] is bound *)

Module SetCommandLaws.
Import SetCommand.

Section laws.
Variable numToString : Js.number → string.

(** Where [errors] is bound and every argument has a string,
    [rawArgs.map] does not throw: it maps every argument to its string
    and pushes one failure per argument whose string is empty, in
    order. *)
Lemma map_args_bound rawArgs strs acc :
  Js.strings numToString rawArgs = Some strs →
  map_args numToString rawArgs (Some acc)
  = (inr strs, Some (acc ++ map failure (offending numToString rawArgs))).
Proof.
  revert strs acc. induction rawArgs as [|arg rest IH]; intros strs acc.
  - intros [= <-]. simpl. by rewrite app_nil_r.
  - simpl. unfold parse_arg, offending. rewrite filter_cons.
    destruct (Js.String_ numToString arg) as [s|] eqn:Hs; [|done].
    destruct (Js.strings numToString rest) as [ss|] eqn:Hss; [|done].
    intros [= <-]. case_bool_decide as Hempty.
    + subst s. rewrite (IH ss) by done. rewrite decide_True by done.
      simpl. by rewrite <- app_assoc.
    + rewrite (IH ss) by done. rewrite decide_False by congruence. done.
Qed.

(** Where [errors] is bound, an argument without a string stops
    [rawArgs.map] at the [TypeError] of the conversion. *)
Lemma map_args_bound_throws rawArgs acc :
  Js.strings numToString rawArgs = None →
  ∃ msg acc',
    map_args numToString rawArgs (Some acc) = (inl (TypeError msg), acc').
Proof.
  revert acc. induction rawArgs as [|arg rest IH]; intros acc; [done |].
  simpl. unfold parse_arg.
  destruct (Js.String_ numToString arg) as [s|]; [|intros _; by eexists _, _].
  destruct (Js.strings numToString rest) as [ss|] eqn:Hss; [done |].
  intros _. case_bool_decide.
  - destruct (IH (acc ++ [Errors.DObj
                            [("detailMsg",
                              Js.Str ("Argument '" +:+ s
                                        +:+ "' is not a valid string"));
                             ("arg", arg)]]) eq_refl)
      as (msg & acc' & ->). by eexists _, _.
  - destruct (IH acc eq_refl) as (msg & acc' & ->). by eexists _, _.
Qed.

(** X26: the body of SET's [parse], run where [errors] is bound to an
    empty array.  When every argument has a string and none of the
    strings is empty, it returns the pair of the strings of the first
    two arguments.  When every argument has a string and some are
    empty, it throws one invalid-argument error whose details list every
    argument with an empty string, in order, and nothing else.  When an
    argument has no string, it throws the [TypeError] of the
    conversion. *)
Theorem parse_in_collects_failures (rawArgs : list Js.unknown) :
  (∀ strs,
     Js.strings numToString rawArgs = Some strs →
     (offending numToString rawArgs = [] →
        parse_in numToString (Some []) rawArgs
        = inr (Js.Obj
                 [("key", Js.index (map Js.Str strs) 0);
                  ("value", Js.index (map Js.Str strs) 1)]))
     ∧ (offending numToString rawArgs ≠ [] →
          parse_in numToString (Some []) rawArgs
          = inl (Thrown
              {| Errors.class := Errors.InvalidArgumentErrorClass;
                 Errors.message := "Invalid argument(s) for SET command";
                 Errors.meta := Errors.noMeta;
                 Errors.details :=
                   map failure (offending numToString rawArgs) |})))
  ∧ (Js.strings numToString rawArgs = None →
       ∃ msg, parse_in numToString (Some []) rawArgs
              = inl (TypeError msg)).
Proof.
  split.
  - intros strs Hstrs. unfold parse_in.
    rewrite (map_args_bound _ _ _ Hstrs). simpl. split.
    + by intros ->.
    + intros Hbad. rewrite bool_decide_eq_true_2; [done |].
      rewrite length_map.
      destruct (offending numToString rawArgs); [done | simpl; lia].
  - intros Hnone. unfold parse_in.
    destruct (map_args_bound_throws rawArgs [] Hnone) as (msg & acc' & ->).
    by exists msg.
Qed.

End laws.

Lemma parse_in_collects_failures_witness :
  parse_in (λ _, "0") (Some []) [Js.Str ""; Js.Num Js.NaN; Js.Arr []]
  = inl (Thrown
      {| Errors.class := Errors.InvalidArgumentErrorClass;
         Errors.message := "Invalid argument(s) for SET command";
         Errors.meta := Errors.noMeta;
         Errors.details :=
           [Errors.DObj
              [("detailMsg", Js.Str "Argument '' is not a valid string");
               ("arg", Js.Str "")];
            Errors.DObj
              [("detailMsg", Js.Str "Argument '' is not a valid string");
               ("arg", Js.Arr [])]] |})
  ∧ ∃ msg,
      parse_in (λ _, "0") (Some [])
        [Js.Str "k"; Js.Obj [("toString", Js.Str "x")]]
      = inl (TypeError msg).
Proof.
  split.
  - destruct (proj1 (parse_in_collects_failures (λ _, "0")
                       [Js.Str ""; Js.Num Js.NaN; Js.Arr []])
                [""; "0"; ""] eq_refl) as [_ Hbad].
    apply Hbad. discriminate.
  - apply (proj2 (parse_in_collects_failures (λ _, "0")
                    [Js.Str "k"; Js.Obj [("toString", Js.Str "x")]])).
    reflexivity.
Defined.

End SetCommandLaws.

(** ** The registry with its iteration order: [list] *)

Module OrderedRegistryLaws.

Section maps.
Context {V : Type}.
Implicit Types (m : JsMap.t V).

Lemma get_set key key' (value : V) m :
  JsMap.get key' (JsMap.set key value m)
  = if decide (key = key') then Some value else JsMap.get key' m.
Proof.
  induction m as [|[k v] m IH]; simpl.
  - destruct (String.eqb_spec key key'); by case_decide.
  - destruct (String.eqb_spec k key) as [-> | Hk]; simpl.
    + destruct (String.eqb_spec key key'); by case_decide.
    + destruct (String.eqb_spec k key') as [-> | Hk'].
      * by rewrite decide_False by congruence.
      * apply IH.
Qed.

Lemma set_fresh key (value : V) m :
  JsMap.get key m = None → JsMap.set key value m = m ++ [(key, value)].
Proof.
  induction m as [|[k v] m IH]; simpl; [done |].
  destruct (String.eqb_spec k key); [done |]. intros Hnone. by rewrite IH.
Qed.

Lemma get_list_to_map key m :
  JsMap.get key m = (list_to_map m : gmap string V) !! key.
Proof.
  induction m as [|[k v] m IH]; simpl; [done |].
  destruct (String.eqb_spec k key) as [-> | Hk].
  - by rewrite lookup_insert_eq.
  - by rewrite lookup_insert_ne.
Qed.

Lemma set_list_to_map key (value : V) m :
  (list_to_map (JsMap.set key value m) : gmap string V)
  = <[key := value]> (list_to_map m).
Proof.
  induction m as [|[k v] m IH]; simpl; [done |].
  destruct (String.eqb_spec k key) as [-> | Hk]; simpl.
  - by rewrite insert_insert_eq.
  - rewrite IH. by apply insert_insert_ne.
Qed.

End maps.

Section laws.
Context {W : Type}.
Implicit Types (r : OrderedRegistry.t W) (command : Command.t W).

Lemma has_is_Some key r :
  JsMap.has key (OrderedRegistry.commands r) = true ↔
  is_Some (CommandRegistry.commands (OrderedRegistry.view r) !! key).
Proof.
  unfold JsMap.has. simpl. rewrite <- get_list_to_map.
  destruct (JsMap.get key _); split; try done; by intros [? ?].
Qed.

(** The registry that keeps the order of its map and the registry as a
    lookup table agree: [get] resolves a name alike in both, and
    [register] throws the same error or leaves tables that agree. *)
Lemma view_agrees command r (name : string) :
  OrderedRegistry.get name r
  = CommandRegistry.get name (OrderedRegistry.view r)
  ∧ match OrderedRegistry.register command r with
    | inl exn =>
        CommandRegistry.register command (OrderedRegistry.view r) = inl exn
    | inr r' =>
        CommandRegistry.register command (OrderedRegistry.view r)
        = inr (OrderedRegistry.view r')
    end.
Proof.
  split; [apply get_list_to_map |].
  unfold OrderedRegistry.register, CommandRegistry.register.
  destruct (JsMap.has _ (OrderedRegistry.commands r)) eqn:Hhas.
  - apply has_is_Some in Hhas. by rewrite bool_decide_eq_true_2.
  - rewrite bool_decide_eq_false_2.
    + unfold OrderedRegistry.view. simpl. by rewrite set_list_to_map.
    + intros Htaken%has_is_Some. congruence.
Qed.

Lemma register_appends command r r' :
  OrderedRegistry.register command r = inr r' →
  OrderedRegistry.commands r'
  = OrderedRegistry.commands r
    ++ [(Js.toUpperCase (Command.name command), command)].
Proof.
  unfold OrderedRegistry.register, JsMap.has.
  destruct (JsMap.get _ (OrderedRegistry.commands r)) eqn:Hget; [done |].
  intros [= <-]. simpl. by apply set_fresh.
Qed.

Lemma register_all_appends cmds r r' :
  OrderedRegistry.register_all cmds r = inr r' →
  OrderedRegistry.commands r'
  = OrderedRegistry.commands r
    ++ map (λ c, (Js.toUpperCase (Command.name c), c)) cmds.
Proof.
  revert r. induction cmds as [|c cmds IH]; intros r; simpl.
  - intros [= <-]. by rewrite app_nil_r.
  - destruct (OrderedRegistry.register c r) as [|r1] eqn:Hreg; [done |].
    intros Hrest. rewrite (IH _ Hrest), (register_appends _ _ _ Hreg).
    by rewrite <- app_assoc.
Qed.

(** X28: [list] returns the registered commands in the order they were
    registered: after the commands of a list have all been registered in
    a fresh registry, [list] is that list, and each of them is found by
    [get] under its name. *)
Theorem list_is_registration_order (cmds : list (Command.t W)) r :
  OrderedRegistry.register_all cmds OrderedRegistry.new = inr r →
  OrderedRegistry.list r = cmds
  ∧ ∀ command, command ∈ cmds →
      OrderedRegistry.get (Command.name command) r = Some command.
Proof.
  intros Hreg. pose proof (register_all_appends _ _ _ Hreg) as Hcmds.
  simpl in Hcmds. split.
  - unfold OrderedRegistry.list, JsMap.values. rewrite Hcmds, map_map.
    simpl. apply map_id.
  - revert Hreg. clear Hcmds.
    generalize (@OrderedRegistry.new W). revert r.
    induction cmds as [|c cmds IH]; intros r r0 Hreg command Hin.
    { by apply elem_of_nil in Hin. }
    simpl in Hreg.
    destruct (OrderedRegistry.register c r0) as [|r1] eqn:Hc; [done |].
    apply elem_of_cons in Hin as [-> | Hin]; [|by eapply IH].
    unfold OrderedRegistry.get.
    rewrite (register_all_appends _ _ _ Hreg), (register_appends _ _ _ Hc).
    rewrite get_list_to_map, <- app_assoc, list_to_map_app.
    apply lookup_union_Some_raw. right. split.
    + rewrite <- get_list_to_map.
      unfold OrderedRegistry.register, JsMap.has in Hc.
      by destruct (JsMap.get _ (OrderedRegistry.commands r0)).
    + simpl. by rewrite lookup_insert_eq.
Qed.

End laws.

Lemma list_is_registration_order_witness :
  let cmd (n : string) : Command.t unit :=
    {| Command.name := n;
       Command.arity := {| Command.min := 0; Command.max := 5 |};
       Command.isWrite := false;
       Command.execute := λ _ _ args w, (inr args, w);
       Command.parse := None |} in
  ∃ r, OrderedRegistry.register_all [cmd "set"; cmd "get"; cmd "expire"]
         OrderedRegistry.new = inr r
       ∧ OrderedRegistry.list r = [cmd "set"; cmd "get"; cmd "expire"].
Proof.
  intros cmd.
  destruct (OrderedRegistry.register_all [cmd "set"; cmd "get"; cmd "expire"]
              OrderedRegistry.new) as [exn | r] eqn:Hreg;
    [discriminate Hreg |].
  exists r. split; [done |].
  apply (proj1 (list_is_registration_order _ r Hreg)).
Defined.

End OrderedRegistryLaws.
